(** * SIFT feature matching (src/feature/sift.cc)

    A shallow embedding of the CPU matching core of [sift.cc]: the
    VLFeat-to-UBC descriptor reordering, the integer distance matrix, the
    one-way best-match selector with its distance and ratio tests, the
    bidirectional matcher with cross-check, and the guided matching
    controller.

    Conventions.
    - Eigen dense matrices are seen through [rows()], [cols()] and
      [operator()(i,j)]; a write [m(i,j) = v] is a pointwise update.
    - C++ [for] loops over [0 .. n-1] are folds over [seq 0 n].
    - [int] is 32 bits wide; the wrap-around is written out in the
      descriptor dot product, the only place that does arithmetic on it.
    - [float] arithmetic is kept abstract behind the interface
      [FloatArith]; exact real arithmetic is one instance of it.
    - A failed [CHECK] aborts the process: functions that contain one
      return a [result]. *)

From Stdlib Require Import ZArith Lia Strings.Byte String Reals Lra.
From stdpp Require Import base list.

Local Open Scope Z_scope.

(** * Part I: the model *)

(** ** Loops *)

(** [for (i = 0; i < n; ++i) s = body i s]. *)
Definition for_loop {S : Type} (n : nat) (body : nat → S → S) (s : S) : S :=
  foldl (λ acc i, body i acc) s (seq 0 n).

(** ** Outcome of a function that contains CHECK macros *)

Inductive result (A : Type) : Type :=
  | Ok (a : A)
  | Fatal.
Arguments Ok {A} a.
Arguments Fatal {A}.

(** ** Dense matrices *)

Record Matrix (A : Type) : Type := mkMatrix {
  rows : nat;
  cols : nat;
  coeff : nat → nat → A
}.
Arguments mkMatrix {A} rows cols coeff.
Arguments rows {A} m.
Arguments cols {A} m.
Arguments coeff {A} m i j.

(** [m(i, j) = v]. *)
Definition set_coeff {A : Type} (m : Matrix A) (i j : nat) (v : A) : Matrix A :=
  mkMatrix (rows m) (cols m)
    (λ i' j', if (j' =? j)%nat && (i' =? i)%nat then v else coeff m i' j').

(** [m.transpose()]. *)
Definition transpose {A : Type} (m : Matrix A) : Matrix A :=
  mkMatrix (cols m) (rows m) (λ i j, coeff m j i).

(** A matrix literal, row by row; the column count is that of the first
    row. *)
Definition of_rows {A : Type} (d : A) (l : list (list A)) : Matrix A :=
  mkMatrix (length l) (length (List.hd [] l))
    (λ i j, List.nth j (List.nth i l []) d).

Definition MatrixXi : Type := Matrix Z.

(** [FeatureDescriptors]: one row of [uint8_t] per feature. *)
Definition FeatureDescriptors : Type := Matrix byte.

(** ** Descriptor reordering *)

(** [const std::array<int, 8> q{{0, 7, 6, 5, 4, 3, 2, 1}}]. *)
Definition q : list nat := [0; 7; 6; 5; 4; 3; 2; 1]%nat.

Definition q_at (k : nat) : nat := List.nth k q 0%nat.

(** The body of the loop over features: the 4 x 4 cells of 8 bins of
    descriptor [n]. *)
Definition transform_row (vlfeat_descriptors : FeatureDescriptors) (n : nat)
    (ubc_descriptors : FeatureDescriptors) : FeatureDescriptors :=
  for_loop 4 (λ i ubc,
    for_loop 4 (λ j ubc,
      for_loop 8 (λ k ubc,
        set_coeff ubc n (8 * (j + 4 * i) + q_at k)
          (coeff vlfeat_descriptors n (8 * (j + 4 * i) + k)))
        ubc)
      ubc)
    ubc_descriptors.

(** [uninit] is the content of the freshly constructed, not yet written
    [ubc_descriptors]. *)
Definition TransformVLFeatToUBCFeatureDescriptors (uninit : nat → nat → byte)
    (vlfeat_descriptors : FeatureDescriptors) : FeatureDescriptors :=
  let ubc_descriptors :=
    mkMatrix (rows vlfeat_descriptors) (cols vlfeat_descriptors) uninit in
  for_loop (rows vlfeat_descriptors) (transform_row vlfeat_descriptors)
    ubc_descriptors.

(** The writes of one feature, on its row seen as a function of the
    column. *)
Definition transform_cells (src : nat → byte) (dst : nat → byte) : nat → byte :=
  for_loop 4 (λ i f,
    for_loop 4 (λ j f,
      for_loop 8 (λ k f,
        λ c, if (c =? 8 * (j + 4 * i) + q_at k)%nat
             then src (8 * (j + 4 * i) + k)%nat else f c)
        f)
      f)
    dst.

(** The column a destination column is read from. *)
Definition ubc_source (c : nat) : nat := (8 * (c / 8) + q_at (c mod 8))%nat.

(** ** Arithmetic interfaces *)

(** The scalar types of the file and the operations it uses on them.
    [float] is C++ [float]. [double] stands for the scalar type of the
    option fields and of the two-view geometry's matrices, which are
    declared in headers outside this file; the code narrows them to
    [float] ([cast<float>()], implicit conversion at a call). *)
Class FloatArith : Type := {
  float : Type;
  double : Type;
  (** [int] to [float]; also the literals [1.0f] and [512.0f]. *)
  f_of_int : Z → float;
  f_cast : double → float;
  fadd : float → float → float;
  fsub : float → float → float;
  fmul : float → float → float;
  fdiv : float → float → float;
  (** [std::acos]. *)
  facos : float → float;
  flt : float → float → bool;
  fgt : float → float → bool;
  fge : float → float → bool;
  d_of_int : Z → double;
  dmul : double → double → double;
  dgt : double → double → bool;
  dge : double → double → bool;
  dle : double → double → bool
}.

(** [CSVToVector<int>] of util/misc.h, which is not part of this file. *)
Class MiscUtils : Type := {
  CSVToVector : string → list Z
}.

(** Exact real arithmetic: no rounding, one scalar type. *)
#[export] Instance Rlt_decision (a b : R) : Decision (a < b)%R := Rlt_dec a b.
#[export] Instance Rgt_decision (a b : R) : Decision (a > b)%R := Rgt_dec a b.
#[export] Instance Rge_decision (a b : R) : Decision (a >= b)%R := Rge_dec a b.
#[export] Instance Rle_decision (a b : R) : Decision (a <= b)%R := Rle_dec a b.

Definition RealArith : FloatArith := {|
  float := R;
  double := R;
  f_of_int := IZR;
  f_cast := λ x, x;
  fadd := Rplus;
  fsub := Rminus;
  fmul := Rmult;
  fdiv := Rdiv;
  facos := acos;
  flt := λ a b, bool_decide (a < b)%R;
  fgt := λ a b, bool_decide (a > b)%R;
  fge := λ a b, bool_decide (a >= b)%R;
  d_of_int := IZR;
  dmul := Rmult;
  dgt := λ a b, bool_decide (a > b)%R;
  dge := λ a b, bool_decide (a >= b)%R;
  dle := λ a b, bool_decide (a <= b)%R
|}.

(** A [CSVToVector] for examples: one entry per character. *)
Definition CharsMisc : MiscUtils := {|
  CSVToVector := λ s, List.map (λ _, 0) (list_ascii_of_string s)
|}.

(** ** The descriptor dot product on [int] *)

(** Reduction of an integer to the 32-bit two's complement range. *)
Definition int32 (z : Z) : Z := (z + 2 ^ 31) mod 2 ^ 32 - 2 ^ 31.

(** [uint8_t] to [int]. *)
Definition cast_int (b : byte) : Z := Z.of_N (Byte.to_N b).

(** [descriptors.cast<int>()] into a matrix with 128 columns. *)
Definition descriptors_int (descriptors : FeatureDescriptors) : Matrix Z :=
  mkMatrix (rows descriptors) 128 (λ i j, cast_int (coeff descriptors i j)).

(** [a.row(i1).dot(b.row(i2))] on [int], over the 128 columns. *)
Definition row_dot (a b : Matrix Z) (i1 i2 : nat) : Z :=
  for_loop 128 (λ k acc, int32 (acc + int32 (coeff a i1 k * coeff b i2 k))) 0.

(** The sum [f 0 + ... + f (n-1)] over the integers. *)
Fixpoint sum_n (n : nat) (f : nat → Z) : Z :=
  match n with
  | O => 0
  | S n' => sum_n n' f + f n'
  end.

(** The dot product of two descriptors as an integer, without wrap-around. *)
Definition dot (d1 d2 : FeatureDescriptors) (i1 i2 : nat) : Z :=
  sum_n 128 (λ k, cast_int (coeff d1 i1 k) * cast_int (coeff d2 i2 k)).

(** The squared L2 norm of a descriptor. *)
Definition norm2 (d : FeatureDescriptors) (i : nat) : Z := dot d d i i.

(** ** Small fixed-size vectors and matrices *)

Record Vector2 (A : Type) : Type := mkVector2 { u0 : A; u1 : A }.
Record Vector3 (A : Type) : Type := mkVector3 { v0 : A; v1 : A; v2 : A }.
Record Matrix3 (A : Type) : Type := mkMatrix3 {
  m00 : A; m01 : A; m02 : A;
  m10 : A; m11 : A; m12 : A;
  m20 : A; m21 : A; m22 : A
}.
Arguments mkVector2 {A} u0 u1.
Arguments u0 {A} v.
Arguments u1 {A} v.
Arguments mkVector3 {A} v0 v1 v2.
Arguments v0 {A} v.
Arguments v1 {A} v.
Arguments v2 {A} v.
Arguments mkMatrix3 {A} m00 m01 m02 m10 m11 m12 m20 m21 m22.
Arguments m00 {A} m.
Arguments m01 {A} m.
Arguments m02 {A} m.
Arguments m10 {A} m.
Arguments m11 {A} m.
Arguments m12 {A} m.
Arguments m20 {A} m.
Arguments m21 {A} m.
Arguments m22 {A} m.

Section Matching.
Context {FA : FloatArith} {MU : MiscUtils}.

(** ** Keypoints and matches *)

Record FeatureKeypoint : Type := mkFeatureKeypoint {
  x : float; y : float;
  a11 : float; a12 : float; a21 : float; a22 : float
}.

Definition FeatureKeypoints : Type := list FeatureKeypoint.

#[export] Instance FeatureKeypoint_inhabited : Inhabited FeatureKeypoint :=
  populate (let z := f_of_int 0 in mkFeatureKeypoint z z z z z z).

(** Both indices are of the unsigned type [point2D_t]. *)
Record FeatureMatch : Type := mkFeatureMatch {
  point2D_idx1 : nat;
  point2D_idx2 : nat
}.

Definition FeatureMatches : Type := list FeatureMatch.

(** [std::function<bool(float, float, float, float)>], possibly null. *)
Definition GuidedFilter : Type := option (float → float → float → float → bool).

(** ** ComputeSiftDistanceMatrix *)

(** The CHECKs at the head of the function. *)
Definition guided_checks (keypoints1 keypoints2 : option FeatureKeypoints)
    (descriptors1 descriptors2 : FeatureDescriptors)
    (guided_filter : GuidedFilter) : bool :=
  match guided_filter with
  | None => true
  | Some _ =>
      match keypoints1, keypoints2 with
      | Some k1, Some k2 =>
          (length k1 =? rows descriptors1)%nat && (length k2 =? rows descriptors2)%nat
      | _, _ => false
      end
  end.

(** The value written to [dists(i1, i2)]. *)
Definition dist_cell (keypoints1 keypoints2 : option FeatureKeypoints)
    (descriptors1_int descriptors2_int : Matrix Z)
    (guided_filter : GuidedFilter) (i1 i2 : nat) : Z :=
  if match guided_filter with
     | Some g =>
         g (x (default [] keypoints1 !!! i1)) (y (default [] keypoints1 !!! i1))
           (x (default [] keypoints2 !!! i2)) (y (default [] keypoints2 !!! i2))
     | None => false
     end
  then 0
  else row_dot descriptors1_int descriptors2_int i1 i2.

(** [uninit] is the content of the freshly constructed [dists]. The
    assignment of the descriptors to matrices with 128 columns asserts
    that they have 128 columns. *)
Definition ComputeSiftDistanceMatrix (uninit : nat → nat → Z)
    (keypoints1 keypoints2 : option FeatureKeypoints)
    (descriptors1 descriptors2 : FeatureDescriptors)
    (guided_filter : GuidedFilter) : result MatrixXi :=
  if negb (guided_checks keypoints1 keypoints2 descriptors1 descriptors2 guided_filter)
  then Fatal
  else if negb ((cols descriptors1 =? 128)%nat && (cols descriptors2 =? 128)%nat)
  then Fatal
  else
    let descriptors1_int := descriptors_int descriptors1 in
    let descriptors2_int := descriptors_int descriptors2 in
    let dists := mkMatrix (rows descriptors1) (rows descriptors2) uninit in
    Ok (for_loop (rows descriptors1) (λ i1 dists,
          for_loop (rows descriptors2) (λ i2 dists,
            set_coeff dists i1 i2
              (dist_cell keypoints1 keypoints2 descriptors1_int descriptors2_int
                 guided_filter i1 i2))
            dists)
          dists).

(** ** FindBestMatchesOneWay *)

(** [std::min(a, b)]. *)
Definition fmin (a b : float) : float := if flt b a then b else a.

(** [const float kDistNorm = 1.0f / (512.0f * 512.0f)]. *)
Definition kDistNorm : float :=
  fdiv (f_of_int 1) (fmul (f_of_int 512) (f_of_int 512)).

(** [std::acos(std::min(kDistNorm * dist, 1.0f))]. *)
Definition dist_normed (dist : Z) : float :=
  facos (fmin (fmul kDistNorm (f_of_int dist)) (f_of_int 1)).

(** The locals of the scan over one row. [best_i2] is an [int] that holds
    -1 or a column index. *)
Record RowScan : Type := mkRowScan {
  best_i2 : Z;
  best_dist : Z;
  second_best_dist : Z
}.

Definition scan_step (dists : MatrixXi) (i1 i2 : nat) (s : RowScan) : RowScan :=
  let dist := coeff dists i1 i2 in
  if dist >? best_dist s then
    mkRowScan (Z.of_nat i2) dist (best_dist s)
  else if dist >? second_best_dist s then
    mkRowScan (best_i2 s) (best_dist s) dist
  else s.

Definition scan_row (dists : MatrixXi) (i1 : nat) : RowScan :=
  for_loop (cols dists) (scan_step dists i1) (mkRowScan (-1) 0 0).

(** The body of the loop over rows, on [(num_matches, matches)]; each
    [continue] leaves the state as it is. *)
Definition row_step (dists : MatrixXi) (max_ratio max_distance : float)
    (i1 : nat) (st : nat * list Z) : nat * list Z :=
  let s := scan_row dists i1 in
  if best_i2 s =? -1 then st
  else
    let best_dist_normed := dist_normed (best_dist s) in
    if fgt best_dist_normed max_distance then st
    else
      let second_best_dist_normed := dist_normed (second_best_dist s) in
      if fge best_dist_normed (fmul max_ratio second_best_dist_normed) then st
      else (S (fst st), <[i1 := best_i2 s]> (snd st)).

(** Returns [num_matches] and the final content of [*matches]. *)
Definition FindBestMatchesOneWay (dists : MatrixXi)
    (max_ratio max_distance : float) (matches : list Z) : nat * list Z :=
  for_loop (rows dists) (row_step dists max_ratio max_distance)
    (0%nat, resize (rows dists) (-1) matches).

(** Whether row [i1] reaches the end of the loop body: a best column was
    found and neither test sent the row to [continue]. *)
Definition accepted (dists : MatrixXi) (max_ratio max_distance : float)
    (i1 : nat) : bool :=
  let s := scan_row dists i1 in
  negb (best_i2 s =? -1)
  && negb (fgt (dist_normed (best_dist s)) max_distance)
  && negb (fge (dist_normed (best_dist s))
             (fmul max_ratio (dist_normed (second_best_dist s)))).

(** The selector on a fresh, empty [matches], as [FindBestMatches] calls
    it: the vector it leaves behind. *)
Definition one_way (dists : MatrixXi) (max_ratio max_distance : float) : list Z :=
  snd (FindBestMatchesOneWay dists max_ratio max_distance []).

(** The two facts about [float] that the ratio test of a tie rests on:
    the angle of a positive distance is not negative, and multiplying a
    non-negative number by a ratio in (0, 1] does not increase it. *)
Class FloatLaws : Prop := {
  dist_normed_nonneg dist :
    0 < dist → fge (dist_normed dist) (f_of_int 0) = true;
  fmul_contract r a :
    fgt r (f_of_int 0) = true → fge (f_of_int 1) r = true →
    fge a (f_of_int 0) = true → fge a (fmul r a) = true
}.

(** ** FindBestMatches *)

(** A vector of [int] read at an [int] index. *)
Definition at_int (v : list Z) (i : Z) : Z := v !!! Z.to_nat i.

Definition push_match (i1 : nat) (i2 : Z) (matches : FeatureMatches) : FeatureMatches :=
  matches ++ [mkFeatureMatch i1 (Z.to_nat i2)].

(** Returns the final content of [*matches]; the [reserve] calls do not
    change it. *)
Definition FindBestMatches (dists : MatrixXi) (max_ratio max_distance : float)
    (cross_check : bool) (matches : FeatureMatches) : FeatureMatches :=
  let matches := @nil FeatureMatch in
  let matches12 := snd (FindBestMatchesOneWay dists max_ratio max_distance []) in
  if cross_check then
    let matches21 :=
      snd (FindBestMatchesOneWay (transpose dists) max_ratio max_distance []) in
    for_loop (length matches12) (λ i1 matches,
      if negb (matches12 !!! i1 =? -1)
         && negb (at_int matches21 (matches12 !!! i1) =? -1)
         && (at_int matches21 (matches12 !!! i1) =? Z.of_nat i1)
      then push_match i1 (matches12 !!! i1) matches
      else matches)
      matches
  else
    for_loop (length matches12) (λ i1 matches,
      if negb (matches12 !!! i1 =? -1)
      then push_match i1 (matches12 !!! i1) matches
      else matches)
      matches.

(** The condition under which the loop with cross-check pushes row [i1]. *)
Definition cross_cond (matches12 matches21 : list Z) (i1 : nat) : bool :=
  negb (matches12 !!! i1 =? -1)
  && negb (at_int matches21 (matches12 !!! i1) =? -1)
  && (at_int matches21 (matches12 !!! i1) =? Z.of_nat i1).

(** Two matrices of the same shape with the same cells. *)
Definition same_cells (d d' : MatrixXi) : Prop :=
  rows d = rows d' ∧ cols d = cols d' ∧
  ∀ i j, (i < rows d)%nat → (j < cols d)%nat → coeff d i j = coeff d' i j.

(** ** Options *)

Record SiftMatchingOptions : Type := mkSiftMatchingOptions {
  use_gpu : bool;
  gpu_index : string;
  max_ratio : double;
  max_distance : double;
  cross_check : bool;
  max_error : double;
  min_num_trials : Z;
  max_num_trials : Z;
  min_inlier_ratio : double;
  min_num_inliers : Z
}.

(** [SiftMatchingOptions::Check]: each CHECK_OPTION macro returns
    [false] from the function when its comparison fails. *)
Definition Check (o : SiftMatchingOptions) : bool :=
  (if use_gpu o then (0 <? length (CSVToVector (gpu_index o)))%nat else true)
  && dgt (max_ratio o) (d_of_int 0)
  && dgt (max_distance o) (d_of_int 0)
  && dgt (max_error o) (d_of_int 0)
  && (min_num_trials o >=? 0)
  && (max_num_trials o >? 0)
  && (min_num_trials o <=? max_num_trials o)
  && dge (min_inlier_ratio o) (d_of_int 0)
  && dle (min_inlier_ratio o) (d_of_int 1)
  && (min_num_inliers o >=? 0).

(** ** Operations on small vectors and matrices *)

(** [m.cast<float>()]. *)
Definition Matrix3_cast (m : Matrix3 double) : Matrix3 float :=
  mkMatrix3 (f_cast (m00 m)) (f_cast (m01 m)) (f_cast (m02 m))
            (f_cast (m10 m)) (f_cast (m11 m)) (f_cast (m12 m))
            (f_cast (m20 m)) (f_cast (m21 m)) (f_cast (m22 m)).

Definition Matrix3_transpose (m : Matrix3 float) : Matrix3 float :=
  mkMatrix3 (m00 m) (m10 m) (m20 m)
            (m01 m) (m11 m) (m21 m)
            (m02 m) (m12 m) (m22 m).

(** The inner product of two 3-vectors, summed left to right. *)
Definition dot3 (a b : Vector3 float) : float :=
  fadd (fadd (fmul (v0 a) (v0 b)) (fmul (v1 a) (v1 b))) (fmul (v2 a) (v2 b)).

(** [m * p]. *)
Definition Matrix3_mul (m : Matrix3 float) (p : Vector3 float) : Vector3 float :=
  mkVector3 (dot3 (mkVector3 (m00 m) (m01 m) (m02 m)) p)
            (dot3 (mkVector3 (m10 m) (m11 m) (m12 m)) p)
            (dot3 (mkVector3 (m20 m) (m21 m) (m22 m)) p).

(** [p.hnormalized()]. *)
Definition hnormalized (p : Vector3 float) : Vector2 float :=
  mkVector2 (fdiv (v0 p) (v2 p)) (fdiv (v1 p) (v2 p)).

Definition Vector2_sub (a b : Vector2 float) : Vector2 float :=
  mkVector2 (fsub (u0 a) (u0 b)) (fsub (u1 a) (u1 b)).

Definition squaredNorm (a : Vector2 float) : float :=
  fadd (fmul (u0 a) (u0 a)) (fmul (u1 a) (u1 a)).

(** ** Two-view geometry *)

(** The configurations the file names, and [OtherConfig] for every other
    enumerator of [TwoViewGeometry::ConfigurationType]. *)
Inductive ConfigurationType : Type :=
  | CALIBRATED
  | UNCALIBRATED
  | PLANAR
  | PANORAMIC
  | PLANAR_OR_PANORAMIC
  | OtherConfig (tag : nat).

Record TwoViewGeometry : Type := mkTwoViewGeometry {
  config : ConfigurationType;
  F : Matrix3 double;
  H : Matrix3 double;
  inlier_matches : FeatureMatches
}.

(** ** MatchSiftFeaturesCPU and MatchGuidedSiftFeaturesCPU *)

Definition MatchSiftFeaturesCPU (uninit : nat → nat → Z)
    (match_options : SiftMatchingOptions)
    (descriptors1 descriptors2 : FeatureDescriptors)
    (matches : FeatureMatches) : result FeatureMatches :=
  if negb (Check match_options) then Fatal
  else
    match ComputeSiftDistanceMatrix uninit None None descriptors1 descriptors2 None with
    | Fatal => Fatal
    | Ok dists =>
        Ok (FindBestMatches dists (f_cast (max_ratio match_options))
              (f_cast (max_distance match_options)) (cross_check match_options)
              matches)
    end.

(** The first lambda: the filter of the epipolar configurations. *)
Definition epipolar_filter (F : Matrix3 float) (max_residual : float)
    (x1 y1 x2 y2 : float) : bool :=
  let p1 := mkVector3 x1 y1 (f_of_int 1) in
  let p2 := mkVector3 x2 y2 (f_of_int 1) in
  let Fx1 := Matrix3_mul F p1 in
  let Ftx2 := Matrix3_mul (Matrix3_transpose F) p2 in
  let x2tFx1 := dot3 p2 Fx1 in
  fgt (fdiv (fmul x2tFx1 x2tFx1)
         (fadd (fadd (fadd (fmul (v0 Fx1) (v0 Fx1)) (fmul (v1 Fx1) (v1 Fx1)))
                  (fmul (v0 Ftx2) (v0 Ftx2)))
            (fmul (v1 Ftx2) (v1 Ftx2))))
    max_residual.

(** The residual of the epipolar filter as the specification writes it,
    component by component: [Fx1 = F p1], [Ftx2 = F^T p2],
    [(p2^T Fx1)^2 / (Fx1.x^2 + Fx1.y^2 + Ftx2.x^2 + Ftx2.y^2)]. *)
Definition epipolar_residual (F : Matrix3 float) (x1 y1 x2 y2 : float) : float :=
  let one := f_of_int 1 in
  let Fx1_x := fadd (fadd (fmul (m00 F) x1) (fmul (m01 F) y1)) (fmul (m02 F) one) in
  let Fx1_y := fadd (fadd (fmul (m10 F) x1) (fmul (m11 F) y1)) (fmul (m12 F) one) in
  let Fx1_z := fadd (fadd (fmul (m20 F) x1) (fmul (m21 F) y1)) (fmul (m22 F) one) in
  let Ftx2_x := fadd (fadd (fmul (m00 F) x2) (fmul (m10 F) y2)) (fmul (m20 F) one) in
  let Ftx2_y := fadd (fadd (fmul (m01 F) x2) (fmul (m11 F) y2)) (fmul (m21 F) one) in
  let p2tFx1 := fadd (fadd (fmul x2 Fx1_x) (fmul y2 Fx1_y)) (fmul one Fx1_z) in
  fdiv (fmul p2tFx1 p2tFx1)
    (fadd (fadd (fadd (fmul Fx1_x Fx1_x) (fmul Fx1_y Fx1_y))
             (fmul Ftx2_x Ftx2_x))
       (fmul Ftx2_y Ftx2_y)).

(** The second lambda: the filter of the planar configurations. *)
Definition homography_filter (H : Matrix3 float) (max_residual : float)
    (x1 y1 x2 y2 : float) : bool :=
  let p1 := mkVector3 x1 y1 (f_of_int 1) in
  let p2 := mkVector2 x2 y2 in
  fgt (squaredNorm (Vector2_sub (hnormalized (Matrix3_mul H p1)) p2)) max_residual.

(** The choice of [guided_filter]; [None] is the [else { return; }]. *)
Definition select_guided_filter (match_options : SiftMatchingOptions)
    (two_view_geometry : TwoViewGeometry) : GuidedFilter :=
  let max_residual :=
    f_cast (dmul (max_error match_options) (max_error match_options)) in
  let F := Matrix3_cast (F two_view_geometry) in
  let H := Matrix3_cast (H two_view_geometry) in
  match config two_view_geometry with
  | CALIBRATED | UNCALIBRATED => Some (epipolar_filter F max_residual)
  | PLANAR | PANORAMIC | PLANAR_OR_PANORAMIC => Some (homography_filter H max_residual)
  | OtherConfig _ => None
  end.

(** Returns the final content of [*two_view_geometry]. *)
Definition MatchGuidedSiftFeaturesCPU (uninit : nat → nat → Z)
    (match_options : SiftMatchingOptions)
    (keypoints1 keypoints2 : FeatureKeypoints)
    (descriptors1 descriptors2 : FeatureDescriptors)
    (two_view_geometry : TwoViewGeometry) : result TwoViewGeometry :=
  if negb (Check match_options) then Fatal
  else
    match select_guided_filter match_options two_view_geometry with
    | None => Ok two_view_geometry
    | Some guided_filter =>
        match ComputeSiftDistanceMatrix uninit (Some keypoints1) (Some keypoints2)
                descriptors1 descriptors2 (Some guided_filter) with
        | Fatal => Fatal
        | Ok dists =>
            Ok (mkTwoViewGeometry (config two_view_geometry)
                  (F two_view_geometry) (H two_view_geometry)
                  (FindBestMatches dists (f_cast (max_ratio match_options))
                     (f_cast (max_distance match_options))
                     (cross_check match_options)
                     (inlier_matches two_view_geometry)))
        end
    end.

End Matching.

(** ** ExtractSiftFeaturesCPU: from the per-level containers to the outputs *)

(** [for (i = first; i < last; ++i) s = body i s]. *)
Definition for_range {S : Type} (first last : nat) (body : nat → S → S) (s : S) : S :=
  foldl (λ acc i, body i acc) s (seq first (last - first)).

(** The number of keypoints in the first [t] of the given levels. *)
Definition level_offset {A : Type} (levels : list (list A)) (t : nat) : nat :=
  length (concat (take t levels)).

(** [m.row(k) = src]. *)
Definition set_row {A : Type} (m : Matrix A) (k : nat) (src : nat → A) : Matrix A :=
  mkMatrix (rows m) (cols m)
    (λ i c, if (i =? k)%nat then src c else coeff m i c).

#[export] Instance Matrix_inhabited {A : Type} `{Inhabited A} : Inhabited (Matrix A) :=
  populate (mkMatrix 0 0 (λ _ _, inhabitant)).

#[export] Instance byte_inhabited : Inhabited byte := populate x00.

Section Extraction.
Context {FA : FloatArith}.

(** The tail of [ExtractSiftFeaturesCPU], after the loop over the octaves
    has filled [level_num_features], [level_keypoints] and
    [level_descriptors] (one entry per DOG level, pushed together). *)

(** The descending loop that determines how many DOG levels to keep. [i]
    is the number of levels not yet visited, the loop variable is
    [i - 1]; a [break] returns at once. Returns [first_level_to_keep],
    [num_features] and [num_features_with_orientations]. *)
Fixpoint count_levels (max_num_features : Z) (level_num_features : list nat)
    (level_keypoints : list (list FeatureKeypoint)) (i : nat)
    (first_level_to_keep num_features num_features_with_orientations : Z)
    : Z * Z * Z :=
  match i with
  | O => (first_level_to_keep, num_features, num_features_with_orientations)
  | S i' =>
      let num_features :=
        int32 (num_features + Z.of_nat (level_num_features !!! i')) in
      let num_features_with_orientations :=
        int32 (num_features_with_orientations +
               Z.of_nat (length (level_keypoints !!! i'))) in
      if num_features >? max_num_features then
        (Z.of_nat i', num_features, num_features_with_orientations)
      else
        count_levels max_num_features level_num_features level_keypoints i'
          first_level_to_keep num_features num_features_with_orientations
  end.

(** The loop over [j] that copies the keypoints of one level, on
    [(k, *keypoints)]. *)
Definition copy_keypoints (level : list FeatureKeypoint)
    (st : nat * list FeatureKeypoint) : nat * list FeatureKeypoint :=
  for_loop (length level) (λ j st,
    (S (fst st), <[fst st := level !!! j]> (snd st))) st.

(** The loop over [j] that copies the descriptors of one level, on
    [(k, *descriptors)]; it runs over the keypoints of the level. *)
Definition copy_descriptors (level_size : nat) (level : FeatureDescriptors)
    (st : nat * FeatureDescriptors) : nat * FeatureDescriptors :=
  for_loop level_size (λ j st,
    (S (fst st), set_row (snd st) (fst st) (coeff level j))) st.

(** Lines 371-407. [default_keypoint] is a default-constructed keypoint,
    [uninit] and [uninit'] the contents of the resized [*descriptors] and
    of the fresh matrix of the reordering; [descriptors] is [None] for a
    null pointer. Returns [first_level_to_keep] and the final contents
    of [*keypoints] and [*descriptors]. *)
Definition collect_levels (default_keypoint : FeatureKeypoint)
    (uninit uninit' : nat → nat → byte) (max_num_features : Z)
    (level_num_features : list nat)
    (level_keypoints : list (list FeatureKeypoint))
    (level_descriptors : list FeatureDescriptors)
    (keypoints : list FeatureKeypoint) (descriptors : option FeatureDescriptors)
    : Z * list FeatureKeypoint * option FeatureDescriptors :=
  let '(first_level_to_keep, _, num_features_with_orientations) :=
    count_levels max_num_features level_num_features level_keypoints
      (length level_keypoints) 0 0 0 in
  let keypoints :=
    snd (for_range (Z.to_nat first_level_to_keep) (length level_keypoints)
           (λ i st, copy_keypoints (level_keypoints !!! i) st)
           (0%nat, resize (Z.to_nat num_features_with_orientations)
                     default_keypoint keypoints)) in
  let descriptors :=
    match descriptors with
    | None => None
    | Some _ =>
        let descriptors :=
          snd (for_range (Z.to_nat first_level_to_keep) (length level_keypoints)
                 (λ i st, copy_descriptors (length (level_keypoints !!! i))
                            (level_descriptors !!! i) st)
                 (0%nat, mkMatrix (Z.to_nat num_features_with_orientations) 128
                           uninit)) in
        Some (TransformVLFeatToUBCFeatureDescriptors uninit' descriptors)
    end in
  (first_level_to_keep, keypoints, descriptors).

End Extraction.

(** ** ExtractCovariantSiftFeaturesCPU: the copy of the detected keypoints *)

(** [VlFrameOrientedEllipse] and [VlCovDetFeature] of VLFeat, with the
    fields the file reads. *)
Module VlFrame.
Record t (A : Type) : Type := mk {
  x : A; y : A; a11 : A; a12 : A; a21 : A; a22 : A
}.
Arguments mk {A} x y a11 a12 a21 a22.
Arguments x {A} t.
Arguments y {A} t.
Arguments a11 {A} t.
Arguments a12 {A} t.
Arguments a21 {A} t.
Arguments a22 {A} t.
End VlFrame.

Module VlCovDetFeature.
Record t (A : Type) : Type := mk {
  frame : VlFrame.t A; o : Z; s : Z
}.
Arguments mk {A} frame o s.
Arguments frame {A} t.
Arguments o {A} t.
Arguments s {A} t.
End VlCovDetFeature.

(** [const int kMaxOctaveResolution = 1000]. *)
Definition kMaxOctaveResolution : Z := 1000.

(** [std::numeric_limits<int>::max()]. *)
Definition INT_MAX : Z := 2 ^ 31 - 1.

(** [static_cast<size_t>] of an [int]. *)
Definition to_size_t (z : Z) : Z := z mod 2 ^ 64.

Section Covariant.
Context {FA : FloatArith}.

(** [v + 0.5] assigned to a [float]. *)
Variable add_half : float → float.

Definition keypoint_of_feature (feature : VlCovDetFeature.t float) : FeatureKeypoint :=
  let frame := VlCovDetFeature.frame feature in
  mkFeatureKeypoint (add_half (VlFrame.x frame)) (add_half (VlFrame.y frame))
    (VlFrame.a11 frame) (VlFrame.a12 frame)
    (VlFrame.a21 frame) (VlFrame.a22 frame).

(** [features[i].o * kMaxOctaveResolution + features[i].s] on [int]. *)
Definition octave_scale_idx (feature : VlCovDetFeature.t float) : Z :=
  int32 (int32 (VlCovDetFeature.o feature * kMaxOctaveResolution) +
         VlCovDetFeature.s feature).

(** Lines 473-497: the loop over the sorted features, from the feature
    it has reached, on [prev_octave_scale_idx] and [*keypoints]. The
    CHECK_LE aborts, the [break] returns. *)
Fixpoint copy_features (max_num_features : Z)
    (features : list (VlCovDetFeature.t float)) (prev_octave_scale_idx : Z)
    (keypoints : list FeatureKeypoint) : result (list FeatureKeypoint) :=
  match features with
  | [] => Ok keypoints
  | feature :: features' =>
      let keypoints := keypoints ++ [keypoint_of_feature feature] in
      let idx := octave_scale_idx feature in
      if idx >? prev_octave_scale_idx then Fatal
      else if negb (idx =? prev_octave_scale_idx)
              && (Z.of_nat (length keypoints) >=? to_size_t max_num_features)
      then Ok keypoints
      else copy_features max_num_features features' idx keypoints
  end.

(** The indices of the features do not increase, starting below [prev]. *)
Fixpoint descending (prev : Z) (features : list (VlCovDetFeature.t float)) : Prop :=
  match features with
  | [] => True
  | feature :: features' =>
      octave_scale_idx feature ≤ prev ∧
      descending (octave_scale_idx feature) features'
  end.

(** The last of the features has another index than the one before it,
    or than [prev] if it is the only one. *)
Fixpoint last_starts_level (prev : Z) (features : list (VlCovDetFeature.t float))
    : Prop :=
  match features with
  | [] => False
  | [feature] => octave_scale_idx feature ≠ prev
  | feature :: features' => last_starts_level (octave_scale_idx feature) features'
  end.

End Covariant.

(** ** Example data *)

(** One feature whose bin [j] holds [j]. *)
Definition ramp_descriptors : FeatureDescriptors :=
  mkMatrix 1 128 (λ _ j, default x00 (Byte.of_nat j)).

(** One feature whose bins all hold 255. *)
Definition saturated_descriptors : FeatureDescriptors :=
  mkMatrix 1 128 (λ _ _, xff).

(** One feature of squared norm 262144. *)
Definition full_norm_descriptors : FeatureDescriptors :=
  mkMatrix 1 128 (λ _ j,
    List.nth j [xff; xff; xff; xff; x2d; x04; x01; x01; x01]
      x00).

(** A filter that rejects every pair. *)
Definition reject_all : @GuidedFilter RealArith := Some (λ _ _ _ _, true).

(** One keypoint at the origin, in real arithmetic. *)
Definition origin_keypoints : list (@FeatureKeypoint RealArith) :=
  [mkFeatureKeypoint (FA:=RealArith) 0%R 0%R 1%R 0%R 0%R 1%R].

(** A row with a tie between its two columns. *)
Definition tie_dists : MatrixXi := of_rows 0 [[131072; 131072]].

(** A row with a single candidate. *)
Definition single_dists : MatrixXi := of_rows 0 [[131072]].

(** A row without a candidate. *)
Definition zero_dists : MatrixXi := of_rows 0 [[0; 0]].

Definition real_options : @SiftMatchingOptions RealArith :=
  mkSiftMatchingOptions (FA:=RealArith) false EmptyString
    (4 / 5)%R (7 / 10)%R true 4%R 0 10000 (1 / 4)%R 15.

(** Options with max_ratio = 0, which [SiftMatchingOptions::Check]
    refuses. *)
Definition zero_ratio_options : @SiftMatchingOptions RealArith :=
  mkSiftMatchingOptions (FA:=RealArith) false EmptyString
    0%R (7 / 10)%R true 4%R 0 10000 (1 / 4)%R 15.

Definition identity3 : Matrix3 R := mkMatrix3 1%R 0%R 0%R 0%R 1%R 0%R 0%R 0%R 1%R.

Definition undefined_geometry : @TwoViewGeometry RealArith :=
  mkTwoViewGeometry (FA:=RealArith) (OtherConfig 0) identity3 identity3 [].

Definition calibrated_geometry : @TwoViewGeometry RealArith :=
  mkTwoViewGeometry (FA:=RealArith) CALIBRATED identity3 identity3 [].

(** No feature at all. *)
Definition empty_descriptors : FeatureDescriptors := mkMatrix 0 128 (λ _ _, x00).

Definition planar_geometry : @TwoViewGeometry RealArith :=
  mkTwoViewGeometry (FA:=RealArith) PLANAR identity3 identity3 [].

(** The keypoint at the origin. *)
Definition origin_keypoint : @FeatureKeypoint RealArith :=
  mkFeatureKeypoint (FA:=RealArith) 0%R 0%R 1%R 0%R 0%R 1%R.

(** Two DOG levels of two features each. *)
Definition two_levels : list (list (@FeatureKeypoint RealArith)) :=
  [[origin_keypoint; origin_keypoint]; [origin_keypoint; origin_keypoint]].

Definition two_level_features : list nat := [2; 2]%nat.

Definition two_level_descriptors : list FeatureDescriptors :=
  [mkMatrix 2 128 (λ _ _, x01); mkMatrix 2 128 (λ _ _, x02)].

(** [v + 0.5] in real arithmetic. *)
Definition real_add_half (v : R) : R := (v + 1 / 2)%R.

(** Three detected features, two on octave 1 and one on octave 0. *)
Definition three_features : list (VlCovDetFeature.t R) :=
  [VlCovDetFeature.mk (VlFrame.mk 0%R 0%R 1%R 0%R 0%R 1%R) 1 2;
   VlCovDetFeature.mk (VlFrame.mk 1%R 0%R 1%R 0%R 0%R 1%R) 1 2;
   VlCovDetFeature.mk (VlFrame.mk 2%R 0%R 1%R 0%R 0%R 1%R) 0 1].

(** * Part II: properties *)

(** ** Loops *)

Lemma for_loop_S {S : Type} n (body : nat → S → S) s :
  for_loop (Datatypes.S n) body s = body n (for_loop n body s).
Proof.
  unfold for_loop. rewrite seq_S, foldl_app. reflexivity.
Qed.

(** An invariant that holds initially and is kept by every iteration
    holds after the loop. *)
Lemma for_loop_ind {S : Type} (P : nat → S → Prop) n (body : nat → S → S) s :
  P 0%nat s →
  (∀ i acc, (i < n)%nat → P i acc → P (Datatypes.S i) (body i acc)) →
  P n (for_loop n body s).
Proof.
  intros H0 Hstep. induction n as [|n IH]; [exact H0|].
  rewrite for_loop_S. apply Hstep; [lia|]. apply IH.
  intros i acc Hi. apply Hstep. lia.
Qed.

(** ** Matrix cells *)

Lemma coeff_set_coeff {A : Type} (m : Matrix A) i j v i' j' :
  coeff (set_coeff m i j v) i' j' =
  if (j' =? j)%nat && (i' =? i)%nat then v else coeff m i' j'.
Proof. reflexivity. Qed.

Lemma coeff_set_coeff_eq {A : Type} (m : Matrix A) i j v :
  coeff (set_coeff m i j v) i j = v.
Proof. rewrite coeff_set_coeff, !Nat.eqb_refl. reflexivity. Qed.

Lemma coeff_set_coeff_row_ne {A : Type} (m : Matrix A) i j v i' j' :
  i' ≠ i → coeff (set_coeff m i j v) i' j' = coeff m i' j'.
Proof.
  intros Hne. rewrite coeff_set_coeff.
  apply Nat.eqb_neq in Hne. rewrite Hne, andb_false_r. reflexivity.
Qed.

Lemma coeff_set_coeff_col_ne {A : Type} (m : Matrix A) i j v i' j' :
  j' ≠ j → coeff (set_coeff m i j v) i' j' = coeff m i' j'.
Proof.
  intros Hne. rewrite coeff_set_coeff.
  apply Nat.eqb_neq in Hne. rewrite Hne. reflexivity.
Qed.

(** Two loops with related bodies, started in related states, end in
    related states. *)
Lemma for_loop_rel {S T : Type} (R : S → T → Prop) n
    (body1 : nat → S → S) (body2 : nat → T → T) s t :
  R s t →
  (∀ i a b, (i < n)%nat → R a b → R (body1 i a) (body2 i b)) →
  R (for_loop n body1 s) (for_loop n body2 t).
Proof.
  intros H0 Hstep. induction n as [|n IH]; [exact H0|].
  rewrite !for_loop_S. apply Hstep; [lia|]. apply IH.
  intros i a b Hi. apply Hstep. lia.
Qed.

(** ** Descriptor reordering *)

Lemma transform_row_cells vl n ubc c :
  coeff (transform_row vl n ubc) n c =
  transform_cells (coeff vl n) (coeff ubc n) c.
Proof.
  revert c. unfold transform_row, transform_cells.
  apply (for_loop_rel (λ (m : FeatureDescriptors) (f : nat → byte),
           ∀ c, coeff m n c = f c)); [reflexivity|].
  intros i a b _ Hab.
  apply (for_loop_rel (λ (m : FeatureDescriptors) (f : nat → byte),
           ∀ c, coeff m n c = f c)); [exact Hab|].
  clear a b Hab. intros j a b _ Hab.
  apply (for_loop_rel (λ (m : FeatureDescriptors) (f : nat → byte),
           ∀ c, coeff m n c = f c)); [exact Hab|].
  clear a b Hab. intros k a b _ Hab c.
  rewrite coeff_set_coeff, Nat.eqb_refl, andb_true_r, Hab. reflexivity.
Qed.

Lemma transform_cells_source src dst c :
  (c < 128)%nat → transform_cells src dst c = src (ubc_source c).
Proof.
  intros Hc.
  do 128 (destruct c as [|c]; [reflexivity|]).
  lia.
Qed.

Lemma transform_row_same vl n ubc c :
  (c < 128)%nat → coeff (transform_row vl n ubc) n c = coeff vl n (ubc_source c).
Proof.
  intros Hc. rewrite transform_row_cells. apply transform_cells_source, Hc.
Qed.

Lemma transform_row_other vl n ubc n' c :
  n' ≠ n → coeff (transform_row vl n ubc) n' c = coeff ubc n' c.
Proof.
  intros Hne. revert c. unfold transform_row.
  apply (for_loop_ind (λ _ (m : FeatureDescriptors),
           ∀ c, coeff m n' c = coeff ubc n' c)); [reflexivity|].
  intros i a _ Ha.
  apply (for_loop_ind (λ _ (m : FeatureDescriptors),
           ∀ c, coeff m n' c = coeff ubc n' c)); [exact Ha|].
  clear a Ha. intros j a _ Ha.
  apply (for_loop_ind (λ _ (m : FeatureDescriptors),
           ∀ c, coeff m n' c = coeff ubc n' c)); [exact Ha|].
  clear a Ha. intros k a _ Ha c.
  rewrite coeff_set_coeff_row_ne by exact Hne. apply Ha.
Qed.

Lemma transform_row_dims vl n ubc :
  rows (transform_row vl n ubc) = rows ubc ∧ cols (transform_row vl n ubc) = cols ubc.
Proof.
  unfold transform_row.
  apply (for_loop_ind (λ _ (m : FeatureDescriptors),
           rows m = rows ubc ∧ cols m = cols ubc)); [done|].
  intros i a _ Ha.
  apply (for_loop_ind (λ _ (m : FeatureDescriptors),
           rows m = rows ubc ∧ cols m = cols ubc)); [exact Ha|].
  clear a Ha. intros j a _ Ha.
  apply (for_loop_ind (λ _ (m : FeatureDescriptors),
           rows m = rows ubc ∧ cols m = cols ubc)); [exact Ha|].
  clear a Ha. intros k a _ Ha. exact Ha.
Qed.

Lemma transform_dims uninit vl :
  rows (TransformVLFeatToUBCFeatureDescriptors uninit vl) = rows vl ∧
  cols (TransformVLFeatToUBCFeatureDescriptors uninit vl) = cols vl.
Proof.
  unfold TransformVLFeatToUBCFeatureDescriptors.
  apply (for_loop_ind (λ _ (m : FeatureDescriptors),
           rows m = rows vl ∧ cols m = cols vl)); [done|].
  intros i a _ [Hr Hc].
  destruct (transform_row_dims vl i a) as [Hr' Hc']. split; congruence.
Qed.

(** Every cell of the result is written, from the source column
    [ubc_source c] of the same feature. *)
Lemma transform_coeff uninit vl n c :
  (n < rows vl)%nat → (c < 128)%nat →
  coeff (TransformVLFeatToUBCFeatureDescriptors uninit vl) n c =
  coeff vl n (ubc_source c).
Proof.
  intros Hn Hc. unfold TransformVLFeatToUBCFeatureDescriptors.
  revert Hn.
  apply (for_loop_ind (λ N (m : FeatureDescriptors),
           (n < N)%nat → coeff m n c = coeff vl n (ubc_source c))); [lia|].
  intros i a _ IH Hn.
  destruct (decide (n = i)) as [->|Hne].
  - apply transform_row_same, Hc.
  - rewrite transform_row_other by exact Hne. apply IH. lia.
Qed.

Lemma q_at_involutive k : (k < 8)%nat → q_at (q_at k) = k.
Proof. intros Hk. do 8 (destruct k as [|k]; [reflexivity|]). lia. Qed.

Lemma q_at_lt k : (k < 8)%nat → (q_at k < 8)%nat.
Proof. intros Hk. do 8 (destruct k as [|k]; [vm_compute; lia|]). lia. Qed.

Lemma ubc_source_lt c : (c < 128)%nat → (ubc_source c < 128)%nat.
Proof.
  intros Hc. do 128 (destruct c as [|c]; [vm_compute; lia|]). lia.
Qed.

Lemma ubc_source_involutive c : (c < 128)%nat → ubc_source (ubc_source c) = c.
Proof.
  intros Hc. do 128 (destruct c as [|c]; [reflexivity|]). lia.
Qed.

Lemma transform_twice_coeff uninit uninit' vl n c :
  (n < rows vl)%nat → (c < 128)%nat →
  coeff (TransformVLFeatToUBCFeatureDescriptors uninit
           (TransformVLFeatToUBCFeatureDescriptors uninit' vl)) n c =
  coeff vl n c.
Proof.
  intros Hn Hc.
  rewrite transform_coeff; [|rewrite (proj1 (transform_dims _ _)); exact Hn|exact Hc].
  rewrite transform_coeff; [|exact Hn|apply ubc_source_lt, Hc].
  rewrite ubc_source_involutive by exact Hc. reflexivity.
Qed.

(** ** The descriptor dot product *)

Lemma cast_int_range b : 0 ≤ cast_int b ≤ 255.
Proof.
  unfold cast_int. pose proof (Byte.to_N_bounded b). lia.
Qed.

Lemma cast_int_inj a b : cast_int a = cast_int b → a = b.
Proof.
  unfold cast_int. intros Hab. apply N2Z.inj in Hab.
  pose proof (Byte.of_to_N a) as Ha. rewrite Hab, Byte.of_to_N in Ha.
  congruence.
Qed.

Lemma int32_small z : - 2 ^ 31 ≤ z < 2 ^ 31 → int32 z = z.
Proof.
  intros Hz. unfold int32. rewrite Z.mod_small; lia.
Qed.

Lemma sum_n_ext n f g :
  (∀ k, (k < n)%nat → f k = g k) → sum_n n f = sum_n n g.
Proof.
  induction n as [|n IH]; intros Hfg; [reflexivity|]. simpl.
  rewrite IH by (intros k Hk; apply Hfg; lia).
  rewrite Hfg by lia. reflexivity.
Qed.

Lemma sum_n_bounds n f M :
  (∀ k, (k < n)%nat → 0 ≤ f k ≤ M) → 0 ≤ sum_n n f ≤ Z.of_nat n * M.
Proof.
  induction n as [|n IH]; intros Hf; simpl; [lia|].
  specialize (IH ltac:(intros k Hk; apply Hf; lia)).
  specialize (Hf n ltac:(lia)). lia.
Qed.

(** A sum of non-negative terms that is zero has only zero terms. *)
Lemma sum_n_zero n f :
  (∀ k, (k < n)%nat → 0 ≤ f k) → sum_n n f = 0 →
  ∀ k, (k < n)%nat → f k = 0.
Proof.
  induction n as [|n IH]; intros Hf Hsum k Hk; [lia|]. simpl in Hsum.
  assert (0 ≤ sum_n n f) as Hnn.
  { clear -Hf. induction n as [|n IHn]; simpl; [lia|].
    specialize (IHn ltac:(intros k Hk; apply Hf; lia)).
    specialize (Hf n ltac:(lia)). lia. }
  pose proof (Hf n ltac:(lia)) as Hfn.
  destruct (decide (k = n)) as [->|Hne]; [lia|].
  apply IH; [intros j Hj; apply Hf; lia|lia|lia].
Qed.

Lemma sum_n_sq_diff n (a b : nat → Z) :
  sum_n n (λ k, (a k - b k) * (a k - b k)) =
  sum_n n (λ k, a k * a k) + sum_n n (λ k, b k * b k) - 2 * sum_n n (λ k, a k * b k).
Proof.
  induction n as [|n IH]; simpl; [reflexivity|]. rewrite IH. ring.
Qed.

(** On descriptors the 32-bit dot product never wraps. *)
Lemma row_dot_exact d1 d2 i1 i2 :
  row_dot (descriptors_int d1) (descriptors_int d2) i1 i2 = dot d1 d2 i1 i2.
Proof.
  unfold row_dot, dot.
  set (f := λ k : nat, cast_int (coeff d1 i1 k) * cast_int (coeff d2 i2 k)).
  enough (∀ n, (n ≤ 128)%nat →
    for_loop n (λ k acc,
      int32 (acc + int32 (coeff (descriptors_int d1) i1 k *
                          coeff (descriptors_int d2) i2 k))) 0 = sum_n n f)
    as Hloop by (apply Hloop; lia).
  assert (∀ k, 0 ≤ f k ≤ 65025) as Hf.
  { intros k. unfold f.
    pose proof (cast_int_range (coeff d1 i1 k)).
    pose proof (cast_int_range (coeff d2 i2 k)). nia. }
  induction n as [|n IH]; intros Hn; [reflexivity|].
  rewrite for_loop_S, IH by lia. simpl.
  change (cast_int (coeff d1 i1 n) * cast_int (coeff d2 i2 n)) with (f n).
  pose proof (sum_n_bounds n f 65025 ltac:(intros; apply Hf)).
  pose proof (Hf n).
  rewrite (int32_small (f n)) by lia. apply int32_small. lia.
Qed.

Lemma dot_bounds d1 d2 i1 i2 : 0 ≤ dot d1 d2 i1 i2 ≤ 8323200.
Proof.
  unfold dot.
  pose proof (sum_n_bounds 128
    (λ k, cast_int (coeff d1 i1 k) * cast_int (coeff d2 i2 k)) 65025) as Hb.
  change (Z.of_nat 128 * 65025) with 8323200 in Hb. apply Hb. intros k _.
  pose proof (cast_int_range (coeff d1 i1 k)).
  pose proof (cast_int_range (coeff d2 i2 k)). nia.
Qed.

(** Twice the dot product is at most the sum of the squared norms, with
    equality only for equal descriptors. *)
Lemma dot_norm2 d1 d2 i1 i2 :
  2 * dot d1 d2 i1 i2 ≤ norm2 d1 i1 + norm2 d2 i2 ∧
  (2 * dot d1 d2 i1 i2 = norm2 d1 i1 + norm2 d2 i2 →
   ∀ k, (k < 128)%nat → coeff d1 i1 k = coeff d2 i2 k).
Proof.
  unfold norm2, dot.
  pose proof (sum_n_sq_diff 128 (λ k, cast_int (coeff d1 i1 k))
                (λ k, cast_int (coeff d2 i2 k))) as Hsq.
  cbv beta in Hsq.
  set (D := sum_n 128 (λ k, (cast_int (coeff d1 i1 k) - cast_int (coeff d2 i2 k)) *
                            (cast_int (coeff d1 i1 k) - cast_int (coeff d2 i2 k)))) in *.
  assert (∀ k, (k < 128)%nat →
            0 ≤ (cast_int (coeff d1 i1 k) - cast_int (coeff d2 i2 k)) *
                (cast_int (coeff d1 i1 k) - cast_int (coeff d2 i2 k))) as Hnn
    by (intros; apply Z.square_nonneg).
  pose proof (sum_n_bounds 128 _ (255 * 255) ltac:(
    intros k Hk; split; [apply (Hnn k Hk)|];
    pose proof (cast_int_range (coeff d1 i1 k));
    pose proof (cast_int_range (coeff d2 i2 k)); nia)) as [HD _].
  fold D in HD. split; [lia|].
  intros Heq k Hk.
  assert (D = 0) as HD0 by lia.
  pose proof (sum_n_zero 128 _ Hnn HD0 k Hk) as Hk0. cbv beta in Hk0.
  apply cast_int_inj. nia.
Qed.

(** ** Filling a matrix cell by cell *)

Lemma fill_row_coeff {A : Type} (cell : nat → A) (m : Matrix A) i C :
  let m' := for_loop C (λ i2 m, set_coeff m i i2 (cell i2)) m in
  rows m' = rows m ∧ cols m' = cols m ∧
  ∀ i' j, coeff m' i' j = if (i' =? i)%nat && (j <? C)%nat then cell j else coeff m i' j.
Proof.
  cbv zeta.
  apply (for_loop_ind (λ K (m' : Matrix A),
    rows m' = rows m ∧ cols m' = cols m ∧
    ∀ i' j, coeff m' i' j =
            if (i' =? i)%nat && (j <? K)%nat then cell j else coeff m i' j)).
  - split; [done|]. split; [done|]. intros i' j.
    rewrite andb_false_r. reflexivity.
  - intros K acc _ (Hr & Hc & Hcell). split; [done|]. split; [done|].
    intros i' j. rewrite coeff_set_coeff, Hcell.
    destruct (Nat.eqb_spec j K) as [->|Hne];
      destruct (Nat.eqb_spec i' i) as [->|Hne']; simpl; try reflexivity.
    + replace (K <? S K)%nat with true by (symmetry; apply Nat.ltb_lt; lia).
      reflexivity.
    + destruct (Nat.ltb_spec j K), (Nat.ltb_spec j (S K)); try reflexivity; lia.
Qed.

Lemma fill_coeff {A : Type} (cell : nat → nat → A) (m : Matrix A) R C :
  let m' := for_loop R (λ i1 m,
              for_loop C (λ i2 m, set_coeff m i1 i2 (cell i1 i2)) m) m in
  rows m' = rows m ∧ cols m' = cols m ∧
  ∀ i j, (i < R)%nat → (j < C)%nat → coeff m' i j = cell i j.
Proof.
  cbv zeta.
  apply (for_loop_ind (λ N (m' : Matrix A),
    rows m' = rows m ∧ cols m' = cols m ∧
    ∀ i j, (i < N)%nat → (j < C)%nat → coeff m' i j = cell i j)).
  - split; [done|]. split; [done|]. intros i j Hi. lia.
  - intros N acc _ (Hr & Hc & Hcell).
    destruct (fill_row_coeff (cell N) acc N C) as (Hr' & Hc' & Hcell').
    split; [congruence|]. split; [congruence|].
    intros i j Hi Hj. rewrite Hcell'.
    destruct (Nat.eqb_spec i N) as [->|Hne]; simpl.
    + replace (j <? C)%nat with true by (symmetry; apply Nat.ltb_lt; lia).
      reflexivity.
    + apply Hcell; lia.
Qed.

Section MatchingProperties.
Context {FA : FloatArith} {MU : MiscUtils}.

(** ** The distance matrix *)

Lemma distance_matrix_ok uninit kps1 kps2 d1 d2 (gf : GuidedFilter) :
  guided_checks kps1 kps2 d1 d2 gf = true →
  cols d1 = 128%nat → cols d2 = 128%nat →
  ∃ dists, ComputeSiftDistanceMatrix uninit kps1 kps2 d1 d2 gf = Ok dists ∧
    rows dists = rows d1 ∧ cols dists = rows d2 ∧
    ∀ i j, (i < rows d1)%nat → (j < rows d2)%nat →
      coeff dists i j =
      dist_cell kps1 kps2 (descriptors_int d1) (descriptors_int d2) gf i j.
Proof.
  intros Hchk Hc1 Hc2. unfold ComputeSiftDistanceMatrix.
  rewrite Hchk, Hc1, Hc2. simpl. eexists. split; [reflexivity|].
  apply (fill_coeff
    (dist_cell kps1 kps2 (descriptors_int d1) (descriptors_int d2) gf)
    (mkMatrix (rows d1) (rows d2) uninit)).
Qed.

Lemma dist_cell_unguided kps1 kps2 d1 d2 i j :
  dist_cell kps1 kps2 (descriptors_int d1) (descriptors_int d2) None i j =
  dot d1 d2 i j.
Proof. unfold dist_cell. apply row_dot_exact. Qed.

Lemma dist_cell_guided k1 k2 d1 d2 g i j kp1 kp2 :
  k1 !! i = Some kp1 → k2 !! j = Some kp2 →
  dist_cell (Some k1) (Some k2) (descriptors_int d1) (descriptors_int d2)
    (Some g) i j =
  if g (x kp1) (y kp1) (x kp2) (y kp2) then 0 else dot d1 d2 i j.
Proof.
  intros H1 H2. unfold dist_cell. simpl.
  rewrite (list_lookup_total_correct _ _ _ H1), (list_lookup_total_correct _ _ _ H2).
  rewrite row_dot_exact. reflexivity.
Qed.

Lemma dist_cell_bounds kps1 kps2 d1 d2 gf i j :
  0 ≤ dist_cell kps1 kps2 (descriptors_int d1) (descriptors_int d2) gf i j
    ≤ dot d1 d2 i j.
Proof.
  unfold dist_cell. rewrite row_dot_exact.
  pose proof (dot_bounds d1 d2 i j).
  destruct gf as [g|]; [destruct (g _ _ _ _)|]; lia.
Qed.

Lemma dist_cell_positive kps1 kps2 d1 d2 gf i j :
  0 < dist_cell kps1 kps2 (descriptors_int d1) (descriptors_int d2) gf i j →
  dist_cell kps1 kps2 (descriptors_int d1) (descriptors_int d2) gf i j =
  dot d1 d2 i j.
Proof.
  unfold dist_cell. rewrite row_dot_exact.
  destruct gf as [g|]; [destruct (g _ _ _ _)|]; lia.
Qed.

(** A run that returns passed the CHECKs on descriptors of 128 columns. *)
Lemma distance_matrix_inv uninit kps1 kps2 d1 d2 (gf : GuidedFilter) dists :
  ComputeSiftDistanceMatrix uninit kps1 kps2 d1 d2 gf = Ok dists →
  guided_checks kps1 kps2 d1 d2 gf = true ∧
  cols d1 = 128%nat ∧ cols d2 = 128%nat.
Proof.
  unfold ComputeSiftDistanceMatrix.
  destruct (guided_checks kps1 kps2 d1 d2 gf); [|discriminate].
  destruct (Nat.eqb_spec (cols d1) 128); [|discriminate].
  destruct (Nat.eqb_spec (cols d2) 128); [|discriminate].
  done.
Qed.

(** C1. When its CHECKs pass on descriptors of 128 columns, the
    distance-matrix builder returns a matrix with one row per descriptor
    of set 1 and one column per descriptor of set 2. Cell (i,j) is 0 if a
    guided filter is supplied and returns true on the positions of
    keypoints i and j; otherwise it is the integer dot product of
    descriptor i of set 1 and descriptor j of set 2. *)
Theorem distance_matrix_cells uninit kps1 kps2 d1 d2 (gf : GuidedFilter) :
  guided_checks kps1 kps2 d1 d2 gf = true →
  cols d1 = 128%nat → cols d2 = 128%nat →
  ∃ dists, ComputeSiftDistanceMatrix uninit kps1 kps2 d1 d2 gf = Ok dists ∧
    rows dists = rows d1 ∧ cols dists = rows d2 ∧
    ∀ i j, (i < rows d1)%nat → (j < rows d2)%nat →
      match gf with
      | None => coeff dists i j = dot d1 d2 i j
      | Some g =>
          ∃ k1 k2 kp1 kp2,
            kps1 = Some k1 ∧ kps2 = Some k2 ∧
            k1 !! i = Some kp1 ∧ k2 !! j = Some kp2 ∧
            coeff dists i j =
            if g (x kp1) (y kp1) (x kp2) (y kp2) then 0 else dot d1 d2 i j
      end.
Proof.
  intros Hchk Hc1 Hc2.
  destruct (distance_matrix_ok uninit kps1 kps2 d1 d2 gf Hchk Hc1 Hc2)
    as (dists & Hrun & Hr & Hc & Hcell).
  exists dists. split; [exact Hrun|]. split; [exact Hr|]. split; [exact Hc|].
  intros i j Hi Hj. rewrite Hcell by assumption.
  destruct gf as [g|]; [|apply dist_cell_unguided].
  unfold guided_checks in Hchk.
  destruct kps1 as [k1|]; [|discriminate].
  destruct kps2 as [k2|]; [|discriminate].
  apply andb_true_iff in Hchk as [Hl1 Hl2].
  apply Nat.eqb_eq in Hl1, Hl2.
  destruct (lookup_lt_is_Some_2 k1 i ltac:(lia)) as [kp1 Hkp1].
  destruct (lookup_lt_is_Some_2 k2 j ltac:(lia)) as [kp2 Hkp2].
  exists k1, k2, kp1, kp2. repeat (split; [done|]).
  apply dist_cell_guided; assumption.
Qed.

(** C8, as amended. Every cell of the distance matrix lies in
    [0, 8323200], where 8323200 = 128 * 255 * 255. It lies in [0, 262144]
    when both descriptors have a squared L2 norm of at most 262144, and
    then 262144 is attained only by two identical descriptors of squared
    norm exactly 262144. *)
Theorem distance_matrix_range uninit kps1 kps2 d1 d2 (gf : GuidedFilter) :
  guided_checks kps1 kps2 d1 d2 gf = true →
  cols d1 = 128%nat → cols d2 = 128%nat →
  ∃ dists, ComputeSiftDistanceMatrix uninit kps1 kps2 d1 d2 gf = Ok dists ∧
    ∀ i j, (i < rows d1)%nat → (j < rows d2)%nat →
      0 ≤ coeff dists i j ≤ 8323200 ∧
      (norm2 d1 i ≤ 262144 → norm2 d2 j ≤ 262144 →
       coeff dists i j ≤ 262144 ∧
       (coeff dists i j = 262144 →
        norm2 d1 i = 262144 ∧ norm2 d2 j = 262144 ∧
        ∀ k, (k < 128)%nat → coeff d1 i k = coeff d2 j k)).
Proof.
  intros Hchk Hc1 Hc2.
  destruct (distance_matrix_ok uninit kps1 kps2 d1 d2 gf Hchk Hc1 Hc2)
    as (dists & Hrun & Hr & Hc & Hcell).
  exists dists. split; [exact Hrun|].
  intros i j Hi Hj. rewrite Hcell by assumption.
  pose proof (dist_cell_bounds kps1 kps2 d1 d2 gf i j) as Hb.
  pose proof (dot_bounds d1 d2 i j) as Hd.
  pose proof (dot_norm2 d1 d2 i j) as [Hle Heq].
  split; [lia|]. intros Hn1 Hn2. split; [lia|].
  intros Hmax.
  pose proof (dist_cell_positive kps1 kps2 d1 d2 gf i j ltac:(lia)) as Hpos.
  split; [lia|]. split; [lia|]. apply Heq. lia.
Qed.


(** ** The scan over one row *)

(** After the scan either no column was positive and the locals are as
    initialised, or the best column holds the positive maximum of the
    row. *)
Lemma scan_row_inv dists i1 :
  let s := scan_row dists i1 in
  (best_i2 s = -1 ∧ best_dist s = 0 ∧ second_best_dist s = 0 ∧
   ∀ j, (j < cols dists)%nat → coeff dists i1 j ≤ 0) ∨
  (∃ c, (c < cols dists)%nat ∧ best_i2 s = Z.of_nat c ∧
        best_dist s = coeff dists i1 c ∧ 0 < best_dist s ∧
        0 ≤ second_best_dist s ≤ best_dist s ∧
        ∀ j, (j < cols dists)%nat → coeff dists i1 j ≤ best_dist s).
Proof.
  cbv zeta. unfold scan_row.
  apply (for_loop_ind (λ K s,
    (best_i2 s = -1 ∧ best_dist s = 0 ∧ second_best_dist s = 0 ∧
     ∀ j, (j < K)%nat → coeff dists i1 j ≤ 0) ∨
    (∃ c, (c < K)%nat ∧ best_i2 s = Z.of_nat c ∧
          best_dist s = coeff dists i1 c ∧ 0 < best_dist s ∧
          0 ≤ second_best_dist s ≤ best_dist s ∧
          ∀ j, (j < K)%nat → coeff dists i1 j ≤ best_dist s))).
  - left. simpl. repeat (split; [reflexivity|]). intros j Hj. lia.
  - intros K s _ Hs. unfold scan_step.
    assert (∀ b : Z, (∀ j, (j < K)%nat → coeff dists i1 j ≤ b) →
              coeff dists i1 K ≤ b →
              ∀ j, (j < S K)%nat → coeff dists i1 j ≤ b) as Hext.
    { intros b Hb HK j Hj. destruct (decide (j = K)) as [->|]; [done|].
      apply Hb. lia. }
    destruct Hs as [(Hi & Hb & Hs2 & Hall)|(c & Hc & Hi & Hb & Hpos & Hs2 & Hall)].
    + destruct (Z.gtb_spec (coeff dists i1 K) (best_dist s)) as [Hgt|Hle].
      * right. exists K. simpl. repeat (split; [lia|]).
        apply Hext; [|lia]. intros j Hj. specialize (Hall j Hj). lia.
      * destruct (Z.gtb_spec (coeff dists i1 K) (second_best_dist s)); [lia|].
        left. repeat (split; [assumption|]). apply Hext; [exact Hall|lia].
    + right. destruct (Z.gtb_spec (coeff dists i1 K) (best_dist s)) as [Hgt|Hle].
      * exists K. simpl. repeat (split; [lia|]).
        apply Hext; [|lia]. intros j Hj. specialize (Hall j Hj). lia.
      * destruct (Z.gtb_spec (coeff dists i1 K) (second_best_dist s)).
        -- exists c. simpl. repeat (split; [lia|]).
           apply Hext; [exact Hall|lia].
        -- exists c. repeat (split; [lia|]). apply Hext; [exact Hall|lia].
Qed.

(** A row without a positive entry has no best column. *)
Lemma scan_row_nonpositive dists i1 :
  (∀ j, (j < cols dists)%nat → coeff dists i1 j ≤ 0) →
  best_i2 (scan_row dists i1) = -1.
Proof.
  intros Hall.
  destruct (scan_row_inv dists i1)
    as [(Hi & _)|(c & Hc & _ & Hb & Hpos & _)]; [exact Hi|].
  specialize (Hall c Hc). lia.
Qed.

(** A best column is a column of the matrix and holds a positive entry. *)
Lemma scan_row_best dists i1 :
  best_i2 (scan_row dists i1) ≠ -1 →
  ∃ c, (c < cols dists)%nat ∧ best_i2 (scan_row dists i1) = Z.of_nat c ∧
       0 < coeff dists i1 c.
Proof.
  intros Hne.
  destruct (scan_row_inv dists i1)
    as [(Hi & _)|(c & Hc & Hi & Hb & Hpos & _)]; [contradiction|].
  exists c. repeat (split; [assumption|]). lia.
Qed.

(** The scan of a row whose only non-zero entry is a positive [V] in
    column [c]. *)
Lemma scan_row_single dists i1 c V :
  (c < cols dists)%nat → coeff dists i1 c = V → 0 < V →
  (∀ j, (j < cols dists)%nat → j ≠ c → coeff dists i1 j = 0) →
  scan_row dists i1 = mkRowScan (Z.of_nat c) V 0.
Proof.
  intros Hc HV Hpos Hzero. unfold scan_row.
  enough (∀ K, (K ≤ cols dists)%nat →
    for_loop K (scan_step dists i1) (mkRowScan (-1) 0 0) =
    if (K <=? c)%nat then mkRowScan (-1) 0 0 else mkRowScan (Z.of_nat c) V 0)
    as Hloop.
  { rewrite (Hloop (cols dists)) by lia.
    destruct (Nat.leb_spec (cols dists) c); [lia|reflexivity]. }
  induction K as [|K IH]; intros HK; [reflexivity|].
  rewrite for_loop_S, IH by lia. unfold scan_step.
  destruct (Nat.leb_spec K c) as [HKc|HKc];
    destruct (Nat.leb_spec (S K) c) as [HSc|HSc]; try lia; simpl.
  - rewrite (Hzero K) by lia. reflexivity.
  - assert (K = c) as -> by lia. rewrite HV.
    destruct (Z.gtb_spec V 0); [reflexivity|lia].
  - rewrite (Hzero K) by lia.
    destruct (Z.gtb_spec 0 V); [lia|]. reflexivity.
Qed.

(** ** The one-way selector *)

Lemma row_step_accepted dists r md i1 st :
  row_step dists r md i1 st =
  if accepted dists r md i1
  then (S (fst st), <[i1 := best_i2 (scan_row dists i1)]> (snd st))
  else st.
Proof.
  unfold row_step, accepted.
  destruct (best_i2 (scan_row dists i1) =? -1); [reflexivity|].
  destruct (fgt _ md); [reflexivity|].
  destruct (fge _ _); reflexivity.
Qed.

(** The vector after the loop over rows: an accepted row holds its best
    column, every other row holds what the resized vector held. *)
Lemma FindBestMatchesOneWay_lookup dists r md matches i1 :
  (i1 < rows dists)%nat →
  snd (FindBestMatchesOneWay dists r md matches) !! i1 =
  if accepted dists r md i1
  then Some (best_i2 (scan_row dists i1))
  else resize (rows dists) (-1) matches !! i1.
Proof.
  intros Hi1. unfold FindBestMatchesOneWay.
  set (init := resize (rows dists) (-1) matches).
  enough (∀ N, (N ≤ rows dists)%nat →
    let st := for_loop N (row_step dists r md) (0%nat, init) in
    length (snd st) = rows dists ∧
    snd st !! i1 =
      if (i1 <? N)%nat && accepted dists r md i1
      then Some (best_i2 (scan_row dists i1)) else init !! i1) as Hloop.
  { destruct (Hloop (rows dists) ltac:(lia)) as [_ Hl]. rewrite Hl.
    replace (i1 <? rows dists)%nat with true by (symmetry; apply Nat.ltb_lt; lia).
    reflexivity. }
  induction N as [|N IH]; intros HN.
  - simpl. split; [apply length_resize|reflexivity].
  - cbv zeta. rewrite for_loop_S, row_step_accepted.
    destruct (IH ltac:(lia)) as [Hlen Hl].
    set (st := for_loop N (row_step dists r md) (0%nat, init)) in *.
    destruct (accepted dists r md N) eqn:HaccN; simpl.
    + rewrite length_insert. split; [exact Hlen|].
      destruct (decide (i1 = N)) as [->|Hne].
      * rewrite list_lookup_insert_eq by lia.
        replace (N <? S N)%nat with true by (symmetry; apply Nat.ltb_lt; lia).
        rewrite HaccN. reflexivity.
      * rewrite list_lookup_insert_ne by done. rewrite Hl.
        destruct (Nat.ltb_spec i1 N), (Nat.ltb_spec i1 (S N)); try lia; reflexivity.
    + split; [exact Hlen|]. rewrite Hl.
      destruct (decide (i1 = N)) as [->|Hne].
      * rewrite HaccN, !andb_false_r. reflexivity.
      * destruct (Nat.ltb_spec i1 N), (Nat.ltb_spec i1 (S N)); try lia; reflexivity.
Qed.

Lemma FindBestMatchesOneWay_length dists r md matches :
  length (snd (FindBestMatchesOneWay dists r md matches)) = rows dists.
Proof.
  unfold FindBestMatchesOneWay.
  apply (for_loop_ind (λ _ (st : nat * list Z), length (snd st) = rows dists)).
  - apply length_resize.
  - intros i st _ Hlen. rewrite row_step_accepted.
    destruct (accepted dists r md i); [|exact Hlen].
    simpl. rewrite length_insert. exact Hlen.
Qed.

(** The returned count is the number of accepted rows. *)
Lemma FindBestMatchesOneWay_count dists r md matches :
  fst (FindBestMatchesOneWay dists r md matches) =
  length (filter (λ i1, Is_true (accepted dists r md i1)) (seq 0 (rows dists))).
Proof.
  unfold FindBestMatchesOneWay.
  apply (for_loop_ind (λ N (st : nat * list Z),
    fst st = length (filter (λ i1, Is_true (accepted dists r md i1)) (seq 0 N))));
    [reflexivity|].
  intros i st _ Hst. rewrite row_step_accepted, seq_S, filter_app, length_app.
  simpl. rewrite filter_cons, filter_nil.
  destruct (accepted dists r md i); simpl; lia.
Qed.

Lemma one_way_length dists r md : length (one_way dists r md) = rows dists.
Proof. apply FindBestMatchesOneWay_length. Qed.

Lemma one_way_lookup dists r md i1 :
  (i1 < rows dists)%nat →
  one_way dists r md !! i1 =
  Some (if accepted dists r md i1 then best_i2 (scan_row dists i1) else -1).
Proof.
  intros Hi1. unfold one_way.
  rewrite FindBestMatchesOneWay_lookup by exact Hi1.
  destruct (accepted dists r md i1); [reflexivity|].
  rewrite resize_nil. apply lookup_replicate_2, Hi1.
Qed.

Lemma accepted_best dists r md i1 :
  accepted dists r md i1 = true →
  ∃ c, (c < cols dists)%nat ∧ best_i2 (scan_row dists i1) = Z.of_nat c ∧
       0 < coeff dists i1 c.
Proof.
  unfold accepted. intros Hacc.
  apply andb_true_iff in Hacc as [Hacc _].
  apply andb_true_iff in Hacc as [Hacc _].
  apply negb_true_iff, Z.eqb_neq in Hacc.
  apply scan_row_best, Hacc.
Qed.

(** An entry of the selector's vector other than the sentinel is a column
    of the matrix whose entry in that row is positive. *)
Lemma one_way_matched dists r md i1 v :
  one_way dists r md !! i1 = Some v → v ≠ -1 →
  (i1 < rows dists)%nat ∧ accepted dists r md i1 = true ∧
  ∃ c, (c < cols dists)%nat ∧ v = Z.of_nat c ∧ 0 < coeff dists i1 c.
Proof.
  intros Hl Hv.
  assert (i1 < rows dists)%nat as Hi1.
  { rewrite <- (one_way_length dists r md). eapply lookup_lt_Some, Hl. }
  rewrite one_way_lookup in Hl by exact Hi1.
  destruct (accepted dists r md i1) eqn:Hacc; [|congruence].
  split; [exact Hi1|]. split; [reflexivity|].
  destruct (accepted_best _ _ _ _ Hacc) as (c & Hc & Hb & Hpos).
  exists c. split; [exact Hc|]. split; [congruence|exact Hpos].
Qed.

(** ** The bidirectional matcher *)

Lemma push_loop (p : nat → bool) (v : nat → Z) n acc :
  for_loop n (λ i ms, if p i then push_match i (v i) ms else ms) acc =
  acc ++ ((λ i, mkFeatureMatch i (Z.to_nat (v i))) <$>
          filter (λ i, Is_true (p i)) (seq 0 n)).
Proof.
  induction n as [|n IH].
  - simpl. rewrite app_nil_r. reflexivity.
  - rewrite for_loop_S, IH, seq_S, filter_app, fmap_app, app_assoc. simpl.
    rewrite filter_cons, filter_nil.
    destruct (p n); simpl.
    + reflexivity.
    + rewrite app_nil_r. reflexivity.
Qed.

Lemma elem_of_push_loop (p : nat → bool) (v : nat → Z) n m :
  m ∈ for_loop n (λ i ms, if p i then push_match i (v i) ms else ms) [] ↔
  ∃ i, (i < n)%nat ∧ p i = true ∧ m = mkFeatureMatch i (Z.to_nat (v i)).
Proof.
  rewrite push_loop, app_nil_l, list_elem_of_fmap. split.
  - intros (i & -> & Hi). apply list_elem_of_filter in Hi as [Hp Hi].
    apply elem_of_seq in Hi. exists i.
    split; [lia|]. split; [apply Is_true_true, Hp|reflexivity].
  - intros (i & Hi & Hp & ->). exists i. split; [reflexivity|].
    apply list_elem_of_filter. split; [apply Is_true_true, Hp|].
    apply elem_of_seq. lia.
Qed.

Lemma push_loop_idx1 (p : nat → bool) (v : nat → Z) n :
  point2D_idx1 <$>
    for_loop n (λ i ms, if p i then push_match i (v i) ms else ms) [] =
  filter (λ i, Is_true (p i)) (seq 0 n).
Proof.
  rewrite push_loop, app_nil_l, <- list_fmap_compose.
  rewrite <- (list_fmap_id (filter _ _)) at 2.
  apply list_fmap_ext. intros _ i _. reflexivity.
Qed.

Lemma push_loop_sublist (p p' : nat → bool) (v : nat → Z) n :
  (∀ i, p i = true → p' i = true) →
  for_loop n (λ i ms, if p i then push_match i (v i) ms else ms) []
    `sublist_of`
  for_loop n (λ i ms, if p' i then push_match i (v i) ms else ms) [].
Proof.
  intros Hpp'. rewrite !push_loop, !app_nil_l.
  apply fmap_sublist.
  induction (seq 0 n) as [|i l IH]; [constructor|].
  rewrite !filter_cons.
  destruct (p i) eqn:Hp.
  - rewrite (Hpp' i Hp). simpl. apply sublist_skip, IH.
  - destruct (decide (Is_true false)) as [[]|_].
    destruct (decide (Is_true (p' i))); [apply sublist_cons, IH|exact IH].
Qed.

Lemma FindBestMatches_cross dists r md ms :
  FindBestMatches dists r md true ms =
  for_loop (rows dists) (λ i1 matches,
    if cross_cond (one_way dists r md) (one_way (transpose dists) r md) i1
    then push_match i1 (one_way dists r md !!! i1) matches else matches) [].
Proof.
  unfold FindBestMatches, cross_cond.
  change (snd (FindBestMatchesOneWay dists r md [])) with (one_way dists r md).
  change (snd (FindBestMatchesOneWay (transpose dists) r md []))
    with (one_way (transpose dists) r md).
  rewrite one_way_length. reflexivity.
Qed.

Lemma FindBestMatches_plain dists r md ms :
  FindBestMatches dists r md false ms =
  for_loop (rows dists) (λ i1 matches,
    if negb (one_way dists r md !!! i1 =? -1)
    then push_match i1 (one_way dists r md !!! i1) matches else matches) [].
Proof.
  unfold FindBestMatches.
  change (snd (FindBestMatchesOneWay dists r md [])) with (one_way dists r md).
  rewrite one_way_length. reflexivity.
Qed.

Lemma elem_of_FindBestMatches_plain dists r md ms i1 i2 :
  mkFeatureMatch i1 i2 ∈ FindBestMatches dists r md false ms ↔
  one_way dists r md !! i1 = Some (Z.of_nat i2).
Proof.
  rewrite FindBestMatches_plain, elem_of_push_loop. split.
  - intros (i & Hi & Hp & Heq). injection Heq as <- ->.
    apply negb_true_iff, Z.eqb_neq in Hp.
    assert (one_way dists r md !! i1 = Some (one_way dists r md !!! i1)) as Hl.
    { apply list_lookup_lookup_total_lt. rewrite one_way_length. exact Hi. }
    destruct (one_way_matched _ _ _ _ _ Hl Hp) as (_ & _ & c & _ & Hc & _).
    rewrite Hl, Hc, Nat2Z.id. reflexivity.
  - intros Hl. exists i1.
    pose proof (lookup_lt_Some _ _ _ Hl) as Hi. rewrite one_way_length in Hi.
    rewrite (list_lookup_total_correct _ _ _ Hl), Nat2Z.id.
    split; [exact Hi|]. split; [|reflexivity].
    apply negb_true_iff, Z.eqb_neq. lia.
Qed.

Lemma elem_of_FindBestMatches_cross dists r md ms i1 i2 :
  mkFeatureMatch i1 i2 ∈ FindBestMatches dists r md true ms ↔
  one_way dists r md !! i1 = Some (Z.of_nat i2) ∧
  one_way (transpose dists) r md !! i2 = Some (Z.of_nat i1).
Proof.
  rewrite FindBestMatches_cross, elem_of_push_loop. unfold cross_cond, at_int.
  split.
  - intros (i & Hi & Hp & Heq). injection Heq as <- ->.
    apply andb_true_iff in Hp as [Hp Hback].
    apply andb_true_iff in Hp as [Hp _].
    apply negb_true_iff, Z.eqb_neq in Hp. apply Z.eqb_eq in Hback.
    assert (one_way dists r md !! i1 = Some (one_way dists r md !!! i1)) as Hl.
    { apply list_lookup_lookup_total_lt. rewrite one_way_length. exact Hi. }
    destruct (one_way_matched _ _ _ _ _ Hl Hp) as (_ & _ & c & Hc & Hv & _).
    rewrite Hv, Nat2Z.id in Hback |- *. split; [rewrite Hl, Hv; reflexivity|].
    rewrite <- Hback. apply list_lookup_lookup_total_lt.
    rewrite one_way_length. exact Hc.
  - intros [Hl Hb]. exists i1.
    pose proof (lookup_lt_Some _ _ _ Hl) as Hi. rewrite one_way_length in Hi.
    rewrite (list_lookup_total_correct _ _ _ Hl), Nat2Z.id.
    rewrite (list_lookup_total_correct _ _ _ Hb).
    split; [exact Hi|]. split; [|reflexivity].
    rewrite Z.eqb_refl, andb_true_r.
    apply andb_true_iff. split; apply negb_true_iff, Z.eqb_neq; lia.
Qed.

(** Whatever the cross-check setting, an emitted pair is the forward
    result of its row. *)
Lemma FindBestMatches_forward dists r md cc ms i1 i2 :
  mkFeatureMatch i1 i2 ∈ FindBestMatches dists r md cc ms →
  one_way dists r md !! i1 = Some (Z.of_nat i2).
Proof.
  destruct cc.
  - rewrite elem_of_FindBestMatches_cross. tauto.
  - rewrite elem_of_FindBestMatches_plain. tauto.
Qed.

Lemma FindBestMatches_positive dists r md cc ms i1 i2 :
  mkFeatureMatch i1 i2 ∈ FindBestMatches dists r md cc ms →
  (i1 < rows dists)%nat ∧ (i2 < cols dists)%nat ∧ 0 < coeff dists i1 i2.
Proof.
  intros Hin. apply FindBestMatches_forward in Hin.
  destruct (one_way_matched _ _ _ _ _ Hin ltac:(lia))
    as (Hi1 & _ & c & Hc & Hv & Hpos).
  apply Nat2Z.inj in Hv as ->. done.
Qed.

(** C2. With cross-check the matcher emits (i1, i2) exactly when the
    forward selector maps row i1 to i2 and the selector on the transposed
    matrix maps i2 back to i1. Without cross-check it emits (i1, i2)
    exactly when the forward selector maps row i1 to i2, that is one match
    (i1, forward[i1]) for every row whose forward result is not the
    sentinel -1, and no row is emitted twice. *)
Theorem bidirectional_matches dists r md ms :
  let forward := snd (FindBestMatchesOneWay dists r md []) in
  let backward := snd (FindBestMatchesOneWay (transpose dists) r md []) in
  (∀ i1 i2,
     mkFeatureMatch i1 i2 ∈ FindBestMatches dists r md true ms ↔
     forward !! i1 = Some (Z.of_nat i2) ∧ backward !! i2 = Some (Z.of_nat i1)) ∧
  (∀ i1 i2,
     mkFeatureMatch i1 i2 ∈ FindBestMatches dists r md false ms ↔
     forward !! i1 = Some (Z.of_nat i2)) ∧
  (∀ i1 v,
     forward !! i1 = Some v → v ≠ -1 →
     mkFeatureMatch i1 (Z.to_nat v) ∈ FindBestMatches dists r md false ms) ∧
  NoDup (point2D_idx1 <$> FindBestMatches dists r md false ms).
Proof.
  cbv zeta.
  change (snd (FindBestMatchesOneWay dists r md [])) with (one_way dists r md).
  change (snd (FindBestMatchesOneWay (transpose dists) r md []))
    with (one_way (transpose dists) r md).
  split; [apply elem_of_FindBestMatches_cross|].
  split; [apply elem_of_FindBestMatches_plain|]. split.
  - intros i1 v Hl Hv. apply elem_of_FindBestMatches_plain.
    destruct (one_way_matched _ _ _ _ _ Hl Hv) as (_ & _ & c & _ & -> & _).
    rewrite Nat2Z.id. exact Hl.
  - rewrite FindBestMatches_plain, push_loop_idx1.
    apply NoDup_filter, NoDup_seq.
Qed.

(** C6. A pair whose matrix entry is 0 is never in the match list,
    whatever the thresholds and the cross-check setting; a row whose
    entries are all 0 is left unmatched by the selector and contributes
    no match. *)
Theorem zero_entry_never_matched dists r md cc ms :
  (∀ i1 i2, coeff dists i1 i2 = 0 →
     mkFeatureMatch i1 i2 ∉ FindBestMatches dists r md cc ms) ∧
  (∀ i1, (i1 < rows dists)%nat →
     (∀ i2, (i2 < cols dists)%nat → coeff dists i1 i2 = 0) →
     snd (FindBestMatchesOneWay dists r md []) !! i1 = Some (-1) ∧
     ∀ i2, mkFeatureMatch i1 i2 ∉ FindBestMatches dists r md cc ms).
Proof.
  split.
  - intros i1 i2 Hzero Hin.
    apply FindBestMatches_positive in Hin as (_ & _ & Hpos). lia.
  - intros i1 Hi1 Hrow. split.
    + change (snd (FindBestMatchesOneWay dists r md [])) with (one_way dists r md).
      rewrite one_way_lookup by exact Hi1.
      destruct (accepted dists r md i1) eqn:Hacc; [|reflexivity].
      destruct (accepted_best _ _ _ _ Hacc) as (c & Hc & _ & Hpos).
      rewrite (Hrow c Hc) in Hpos. lia.
    + intros i2 Hin.
      apply FindBestMatches_positive in Hin as (_ & Hi2 & Hpos).
      rewrite (Hrow i2 Hi2) in Hpos. lia.
Qed.

(** C10. For the same matrix and thresholds, the match list with
    cross-check is a sublist of the match list without it, and a row that
    survives the cross-check keeps the partner it has without it. *)
Theorem cross_check_subset dists r md ms ms' :
  FindBestMatches dists r md true ms `sublist_of`
    FindBestMatches dists r md false ms' ∧
  (∀ m m', m ∈ FindBestMatches dists r md true ms →
           m' ∈ FindBestMatches dists r md false ms' →
           point2D_idx1 m = point2D_idx1 m' →
           point2D_idx2 m = point2D_idx2 m').
Proof.
  split.
  - rewrite FindBestMatches_cross, FindBestMatches_plain.
    apply push_loop_sublist. intros i Hc. unfold cross_cond in Hc.
    apply andb_true_iff in Hc as [Hc _].
    apply andb_true_iff in Hc as [Hc _]. exact Hc.
  - intros [i1 i2] [i1' i2'] Hm Hm' Heq.
    cbn [point2D_idx1 point2D_idx2] in *. subst i1'.
    apply FindBestMatches_forward in Hm, Hm'.
    rewrite Hm in Hm'. injection Hm' as Hm'. lia.
Qed.

(** ** The tests of the selector *)

(** The selector's result on a row whose only non-zero entry is a
    positive [V] in column [c]: the second-best distance stays 0. *)
Lemma one_way_single dists r md i1 c V :
  (i1 < rows dists)%nat →
  (c < cols dists)%nat → coeff dists i1 c = V → 0 < V →
  (∀ j, (j < cols dists)%nat → j ≠ c → coeff dists i1 j = 0) →
  one_way dists r md !! i1 =
  Some (if negb (fgt (dist_normed V) md)
           && negb (fge (dist_normed V) (fmul r (dist_normed 0)))
        then Z.of_nat c else -1).
Proof.
  intros Hi1 Hc HV Hpos Hzero.
  rewrite one_way_lookup by exact Hi1. unfold accepted.
  rewrite (scan_row_single dists i1 c V Hc HV Hpos Hzero). simpl.
  destruct (Z.eqb_spec (Z.of_nat c) (-1)) as [Heq|_]; [lia|]. reflexivity.
Qed.

(** C4, as amended. For a single-row matrix with one column holding
    V > 0 and all other columns 0, the selector matches the row to that
    column exactly when the angle of V does not exceed max_distance and,
    in addition, is strictly below max_ratio times the angle of the
    second-best distance 0; otherwise the row is unmatched. *)
Theorem single_candidate_row dists r md c V :
  rows dists = 1%nat →
  (c < cols dists)%nat → coeff dists 0 c = V → 0 < V →
  (∀ j, (j < cols dists)%nat → j ≠ c → coeff dists 0 j = 0) →
  let matched :=
    snd (FindBestMatchesOneWay dists r md []) !! 0%nat = Some (Z.of_nat c) in
  (matched ↔
     fgt (dist_normed V) md = false ∧
     fge (dist_normed V) (fmul r (dist_normed 0)) = false) ∧
  (¬ matched →
     snd (FindBestMatchesOneWay dists r md []) !! 0%nat = Some (-1)).
Proof.
  intros Hrows Hc HV Hpos Hzero. cbv zeta.
  change (snd (FindBestMatchesOneWay dists r md [])) with (one_way dists r md).
  rewrite (one_way_single dists r md 0 c V ltac:(lia) Hc HV Hpos Hzero).
  destruct (fgt (dist_normed V) md);
    destruct (fge (dist_normed V) (fmul r (dist_normed 0))); simpl.
  4: { split; [split; [done|reflexivity]|].
       intros Hn. exfalso. apply Hn. reflexivity. }
  all: split; [split|reflexivity].
  all: try (intros Heq; exfalso; injection Heq as Heq; lia).
  all: intros [? ?]; discriminate.
Qed.

(** C3, as amended. For a ratio with 0 < max_ratio <= 1, a row whose
    best and second-best values are identical and positive is marked
    unmatched, whatever max_distance is. The float arithmetic is any
    that satisfies [FloatLaws]. *)
Theorem tie_rejected {FL : FloatLaws} dists r md i1 :
  fgt r (f_of_int 0) = true → fge (f_of_int 1) r = true →
  (i1 < rows dists)%nat →
  0 < best_dist (scan_row dists i1) →
  second_best_dist (scan_row dists i1) = best_dist (scan_row dists i1) →
  snd (FindBestMatchesOneWay dists r md []) !! i1 = Some (-1).
Proof.
  intros Hr0 Hr1 Hi1 Hpos Htie.
  change (snd (FindBestMatchesOneWay dists r md [])) with (one_way dists r md).
  rewrite one_way_lookup by exact Hi1.
  unfold accepted. rewrite Htie.
  rewrite (fmul_contract r (dist_normed (best_dist (scan_row dists i1))) Hr0 Hr1
             (dist_normed_nonneg _ Hpos)).
  rewrite andb_false_r. reflexivity.
Qed.

(** ** The guided matching controller *)

Lemma epipolar_filter_unfold F max_residual x1 y1 x2 y2 :
  epipolar_filter F max_residual x1 y1 x2 y2 =
  fgt (epipolar_residual F x1 y1 x2 y2) max_residual.
Proof. reflexivity. Qed.

(** C9. For the calibrated and the uncalibrated epipolar configuration
    the controller installs a filter that returns true exactly when
    (p2^T F p1)^2 / (Fx1.x^2 + Fx1.y^2 + Ftx2.x^2 + Ftx2.y^2) is strictly
    greater than max_error * max_error, with F the fundamental matrix
    narrowed to float. *)
Theorem epipolar_filter_residual match_options two_view_geometry :
  config two_view_geometry = CALIBRATED ∨
  config two_view_geometry = UNCALIBRATED →
  ∃ g, select_guided_filter match_options two_view_geometry = Some g ∧
    ∀ x1 y1 x2 y2,
      g x1 y1 x2 y2 =
      fgt (epipolar_residual (Matrix3_cast (F two_view_geometry)) x1 y1 x2 y2)
        (f_cast (dmul (max_error match_options) (max_error match_options))).
Proof.
  intros Hcfg. unfold select_guided_filter.
  destruct Hcfg as [-> | ->]; eexists; (split; [reflexivity|]);
    intros x1 y1 x2 y2; apply epipolar_filter_unfold.
Qed.

(** C7, as amended. With options that pass their check, a two-view
    geometry whose configuration is none of calibrated, uncalibrated,
    planar, panoramic and planar-or-panoramic makes the controller return
    normally with the geometry, and so its inlier match list, exactly as
    it was. *)
Theorem unguided_config_noop uninit match_options keypoints1 keypoints2
    descriptors1 descriptors2 two_view_geometry :
  Check match_options = true →
  config two_view_geometry ≠ CALIBRATED →
  config two_view_geometry ≠ UNCALIBRATED →
  config two_view_geometry ≠ PLANAR →
  config two_view_geometry ≠ PANORAMIC →
  config two_view_geometry ≠ PLANAR_OR_PANORAMIC →
  MatchGuidedSiftFeaturesCPU uninit match_options keypoints1 keypoints2
    descriptors1 descriptors2 two_view_geometry = Ok two_view_geometry.
Proof.
  intros Hchk H1 H2 H3 H4 H5. unfold MatchGuidedSiftFeaturesCPU.
  rewrite Hchk. simpl. unfold select_guided_filter.
  destruct (config two_view_geometry); try contradiction. reflexivity.
Qed.

(** X16. A match written by the controller is a pair of keypoints on
    which the installed filter returned false: a pair the filter rejects
    is never selected. *)
Lemma guided_rejected_never_matched uninit match_options keypoints1 keypoints2
    descriptors1 descriptors2 two_view_geometry two_view_geometry' g i1 i2 :
  select_guided_filter match_options two_view_geometry = Some g →
  MatchGuidedSiftFeaturesCPU uninit match_options keypoints1 keypoints2
    descriptors1 descriptors2 two_view_geometry = Ok two_view_geometry' →
  mkFeatureMatch i1 i2 ∈ inlier_matches two_view_geometry' →
  ∃ kp1 kp2, keypoints1 !! i1 = Some kp1 ∧ keypoints2 !! i2 = Some kp2 ∧
             g (x kp1) (y kp1) (x kp2) (y kp2) = false.
Proof.
  intros Hsel Hrun Hin. unfold MatchGuidedSiftFeaturesCPU in Hrun.
  destruct (Check match_options); [|discriminate]. simpl in Hrun.
  rewrite Hsel in Hrun.
  destruct (ComputeSiftDistanceMatrix uninit (Some keypoints1) (Some keypoints2)
              descriptors1 descriptors2 (Some g)) as [dists|] eqn:Hd;
    [|discriminate].
  injection Hrun as <-. cbn [inlier_matches] in Hin.
  destruct (distance_matrix_inv _ _ _ _ _ _ _ Hd) as (Hchk & Hc1 & Hc2).
  destruct (distance_matrix_ok uninit _ _ _ _ _ Hchk Hc1 Hc2)
    as (dists' & Hd' & Hr & Hc & Hcell).
  rewrite Hd in Hd'. injection Hd' as <-.
  apply FindBestMatches_positive in Hin as (Hi1 & Hi2 & Hpos).
  rewrite Hr in Hi1. rewrite Hc in Hi2.
  simpl in Hchk. apply andb_true_iff in Hchk as [Hl1 Hl2].
  apply Nat.eqb_eq in Hl1, Hl2.
  destruct (lookup_lt_is_Some_2 keypoints1 i1 ltac:(lia)) as [kp1 Hkp1].
  destruct (lookup_lt_is_Some_2 keypoints2 i2 ltac:(lia)) as [kp2 Hkp2].
  exists kp1, kp2. split; [exact Hkp1|]. split; [exact Hkp2|].
  rewrite Hcell, (dist_cell_guided _ _ _ _ _ _ _ _ _ Hkp1 Hkp2) in Hpos
    by assumption.
  destruct (g _ _ _ _); [lia|reflexivity].
Qed.

(** ** More on the one-way selector *)

(** The full invariant of the scan: the best column is the first column
    that holds the maximum of the row, and [second_best_dist] is the
    largest entry among the other columns, or 0 when none of them is
    positive. *)
Lemma scan_row_full dists i1 :
  let s := scan_row dists i1 in
  (best_i2 s = -1 ∧ best_dist s = 0 ∧ second_best_dist s = 0 ∧
   ∀ j, (j < cols dists)%nat → coeff dists i1 j ≤ 0) ∨
  (∃ c, (c < cols dists)%nat ∧ best_i2 s = Z.of_nat c ∧
        best_dist s = coeff dists i1 c ∧ 0 < best_dist s ∧
        (∀ j, (j < cols dists)%nat → coeff dists i1 j ≤ best_dist s) ∧
        (∀ j, (j < c)%nat → coeff dists i1 j < best_dist s) ∧
        (∀ j, (j < cols dists)%nat → j ≠ c →
              coeff dists i1 j ≤ second_best_dist s) ∧
        (second_best_dist s = 0 ∨
         ∃ j, (j < cols dists)%nat ∧ j ≠ c ∧
              coeff dists i1 j = second_best_dist s) ∧
        0 ≤ second_best_dist s ≤ best_dist s).
Proof.
  cbv zeta. unfold scan_row.
  apply (for_loop_ind (λ K s,
    (best_i2 s = -1 ∧ best_dist s = 0 ∧ second_best_dist s = 0 ∧
     ∀ j, (j < K)%nat → coeff dists i1 j ≤ 0) ∨
    (∃ c, (c < K)%nat ∧ best_i2 s = Z.of_nat c ∧
          best_dist s = coeff dists i1 c ∧ 0 < best_dist s ∧
          (∀ j, (j < K)%nat → coeff dists i1 j ≤ best_dist s) ∧
          (∀ j, (j < c)%nat → coeff dists i1 j < best_dist s) ∧
          (∀ j, (j < K)%nat → j ≠ c → coeff dists i1 j ≤ second_best_dist s) ∧
          (second_best_dist s = 0 ∨
           ∃ j, (j < K)%nat ∧ j ≠ c ∧ coeff dists i1 j = second_best_dist s) ∧
          0 ≤ second_best_dist s ≤ best_dist s))).
  - left. simpl. repeat (split; [reflexivity|]). intros j Hj. lia.
  - intros K s _ Hs. unfold scan_step.
    assert (∀ j, (j < S K)%nat → j = K ∨ (j < K)%nat) as Hcase by lia.
    destruct Hs as [(Hi & Hb & Hs2 & Hall)
                   |(c & Hc & Hi & Hb & Hpos & Hall & Hfirst & Hoth & Hatt & Hs2)].
    + destruct (Z.gtb_spec (coeff dists i1 K) (best_dist s)) as [Hgt|Hle].
      * right. exists K. simpl. repeat (split; [lia|]).
        split; [intros j Hj; destruct (Hcase j Hj) as [->|Hj'];
                [lia|specialize (Hall j Hj'); lia]|].
        split; [intros j Hj; specialize (Hall j Hj); lia|].
        split; [intros j Hj Hne; specialize (Hall j ltac:(lia)); lia|].
        split; [left; exact Hb|lia].
      * destruct (Z.gtb_spec (coeff dists i1 K) (second_best_dist s)); [lia|].
        left. repeat (split; [assumption|]).
        intros j Hj. destruct (Hcase j Hj) as [->|Hj']; [lia|apply Hall, Hj'].
    + right. destruct (Z.gtb_spec (coeff dists i1 K) (best_dist s)) as [Hgt|Hle].
      * exists K. simpl. repeat (split; [lia|]).
        split; [intros j Hj; destruct (Hcase j Hj) as [->|Hj'];
                [lia|specialize (Hall j Hj'); lia]|].
        split; [intros j Hj; specialize (Hall j Hj); lia|].
        split; [intros j Hj Hne; specialize (Hall j ltac:(lia)); lia|].
        split; [|lia]. right. exists c. repeat (split; [lia|]). lia.
      * destruct (Z.gtb_spec (coeff dists i1 K) (second_best_dist s)) as [Hgt2|Hle2].
        -- exists c. simpl. repeat (split; [lia|]).
           split; [intros j Hj; destruct (Hcase j Hj) as [->|Hj'];
                   [lia|apply Hall, Hj']|].
           split; [exact Hfirst|].
           split; [intros j Hj Hne; destruct (Hcase j Hj) as [->|Hj'];
                   [lia|specialize (Hoth j Hj' Hne); lia]|].
           split; [|lia]. right. exists K. repeat (split; [lia|]). reflexivity.
        -- exists c. repeat (split; [lia|]).
           split; [intros j Hj; destruct (Hcase j Hj) as [->|Hj'];
                   [lia|apply Hall, Hj']|].
           split; [exact Hfirst|].
           split; [intros j Hj Hne; destruct (Hcase j Hj) as [->|Hj'];
                   [lia|apply Hoth; assumption]|].
           split; [|lia].
           destruct Hatt as [Hz|(j & Hj & Hne & Hjs)]; [left; exact Hz|].
           right. exists j. repeat (split; [lia|]). exact Hjs.
Qed.

(** X1. A row that the selector matches is matched to the first column
    that holds the maximum of the row, and that maximum is positive:
    among equal maxima the lowest column index wins. *)
Theorem selector_picks_first_maximum dists r md i1 v :
  snd (FindBestMatchesOneWay dists r md []) !! i1 = Some v → v ≠ -1 →
  ∃ c, v = Z.of_nat c ∧ (c < cols dists)%nat ∧ 0 < coeff dists i1 c ∧
       (∀ j, (j < cols dists)%nat → coeff dists i1 j ≤ coeff dists i1 c) ∧
       (∀ j, (j < c)%nat → coeff dists i1 j < coeff dists i1 c).
Proof.
  intros Hl Hv.
  change (snd (FindBestMatchesOneWay dists r md [])) with (one_way dists r md) in Hl.
  destruct (one_way_matched _ _ _ _ _ Hl Hv) as (Hi1 & Hacc & _).
  rewrite one_way_lookup, Hacc in Hl by exact Hi1. injection Hl as <-.
  destruct (scan_row_full dists i1)
    as [(Hi & _)|(c & Hc & Hi & Hb & Hpos & Hall & Hfirst & _)]; [contradiction|].
  exists c. rewrite <- Hb. done.
Qed.

(** X2. When the scan of a row finds a best column, [second_best_dist]
    is an upper bound of the entries of all other columns, it is never
    negative and never above the best distance, and it is either 0 or
    the entry of one of the other columns: a second column that equals
    the maximum makes it equal to the best distance. *)
Theorem scan_second_best dists i1 c :
  best_i2 (scan_row dists i1) = Z.of_nat c →
  let s := scan_row dists i1 in
  (∀ j, (j < cols dists)%nat → j ≠ c → coeff dists i1 j ≤ second_best_dist s) ∧
  (second_best_dist s = 0 ∨
   ∃ j, (j < cols dists)%nat ∧ j ≠ c ∧ coeff dists i1 j = second_best_dist s) ∧
  0 ≤ second_best_dist s ≤ best_dist s ∧
  (∀ j, (j < cols dists)%nat → j ≠ c → coeff dists i1 j = best_dist s →
        second_best_dist s = best_dist s).
Proof.
  intros Hbest. cbv zeta.
  destruct (scan_row_full dists i1)
    as [(Hi & _)|(c' & Hc & Hi & Hb & Hpos & Hall & Hfirst & Hoth & Hatt & Hs2)];
    [lia|].
  assert (c' = c) as -> by lia.
  split; [exact Hoth|]. split; [exact Hatt|]. split; [exact Hs2|].
  intros j Hj Hne Heq. specialize (Hoth j Hj Hne). lia.
Qed.

(** X3. The selector resizes the vector it is given and writes only the
    rows it matches: the result has one entry per row, a matched row
    holds its best column, and an unmatched row keeps the entry the
    vector already had at that index, or -1 beyond its old length. *)
Theorem selector_keeps_old_entries dists r md matches i1 :
  (i1 < rows dists)%nat →
  length (snd (FindBestMatchesOneWay dists r md matches)) = rows dists ∧
  snd (FindBestMatchesOneWay dists r md matches) !! i1 =
    Some (if accepted dists r md i1 then best_i2 (scan_row dists i1)
          else default (-1) (matches !! i1)).
Proof.
  intros Hi1. split; [apply FindBestMatchesOneWay_length|].
  rewrite FindBestMatchesOneWay_lookup by exact Hi1.
  destruct (accepted dists r md i1); [reflexivity|].
  destruct (decide (i1 < length matches)%nat) as [Hlt|Hge].
  - rewrite lookup_resize by lia.
    destruct (lookup_lt_is_Some_2 matches i1 Hlt) as [v Hv]. rewrite Hv. reflexivity.
  - rewrite lookup_resize_new by lia.
    rewrite (proj2 (lookup_ge_None matches i1)) by lia. reflexivity.
Qed.

Lemma one_way_fmap dists r md :
  one_way dists r md =
  (λ i1, if accepted dists r md i1 then best_i2 (scan_row dists i1) else -1)
    <$> seq 0 (rows dists).
Proof.
  apply list_eq. intros i. rewrite list_lookup_fmap.
  destruct (decide (i < rows dists)%nat) as [Hlt|Hge].
  - rewrite one_way_lookup by exact Hlt.
    rewrite lookup_seq_lt by exact Hlt. reflexivity.
  - rewrite (proj2 (lookup_ge_None _ _)) by (rewrite one_way_length; lia).
    rewrite lookup_seq_ge by lia. reflexivity.
Qed.

Lemma length_filter_fmap_iff {A B : Type} (f : A → B) (P : B → Prop) (Q : A → Prop)
    `{∀ y, Decision (P y)} `{∀ a, Decision (Q a)} (l : list A) :
  (∀ a, P (f a) ↔ Q a) →
  length (filter P (f <$> l)) = length (filter Q l).
Proof.
  intros HPQ. induction l as [|a l IH]; [reflexivity|].
  rewrite fmap_cons, !filter_cons.
  pose proof (HPQ a) as Ha.
  destruct (decide (P (f a))) as [HP|HP], (decide (Q a)) as [HQ|HQ]; simpl;
    rewrite ?IH; try reflexivity; tauto.
Qed.

Lemma one_way_count dists r md :
  fst (FindBestMatchesOneWay dists r md []) =
  length (filter (λ v, v ≠ -1) (one_way dists r md)).
Proof.
  rewrite FindBestMatchesOneWay_count, one_way_fmap. symmetry.
  apply length_filter_fmap_iff. intros i1.
  destruct (accepted dists r md i1) eqn:Hacc.
  - destruct (accepted_best _ _ _ _ Hacc) as (c & _ & -> & _). simpl. split; [done|lia].
  - simpl. split; [lia|done].
Qed.

(** X4. Called on an empty vector, the selector returns as its count the
    number of entries of the vector that are not the sentinel -1, which
    is at most the number of rows. *)
Theorem selector_count dists r md :
  fst (FindBestMatchesOneWay dists r md []) =
    length (filter (λ v, v ≠ -1) (snd (FindBestMatchesOneWay dists r md []))) ∧
  (fst (FindBestMatchesOneWay dists r md []) ≤ rows dists)%nat.
Proof.
  change (snd (FindBestMatchesOneWay dists r md [])) with (one_way dists r md).
  split; [apply one_way_count|].
  rewrite one_way_count, <- (one_way_length dists r md). apply length_filter.
Qed.

(** ** The selector reads only the cells of the matrix *)

Lemma for_loop_ext {S : Type} n (body1 body2 : nat → S → S) s :
  (∀ i acc, (i < n)%nat → body1 i acc = body2 i acc) →
  for_loop n body1 s = for_loop n body2 s.
Proof.
  intros Hbody. apply (for_loop_rel eq); [reflexivity|].
  intros i a b Hi ->. apply Hbody, Hi.
Qed.

Lemma same_cells_transpose d d' :
  same_cells d d' → same_cells (transpose d) (transpose d').
Proof.
  intros (Hr & Hc & Hcell). repeat split; simpl; [done..|].
  intros i j Hi Hj. apply Hcell; assumption.
Qed.

Lemma same_cells_transpose_transpose d : same_cells (transpose (transpose d)) d.
Proof. repeat split. Qed.

Lemma scan_row_ext d d' i1 :
  same_cells d d' → (i1 < rows d)%nat → scan_row d i1 = scan_row d' i1.
Proof.
  intros (Hr & Hc & Hcell) Hi1. unfold scan_row. rewrite <- Hc.
  apply for_loop_ext. intros j s Hj. unfold scan_step.
  rewrite (Hcell i1 j Hi1 Hj). reflexivity.
Qed.

Lemma one_way_ext d d' r md :
  same_cells d d' → one_way d r md = one_way d' r md.
Proof.
  intros Hsame. rewrite !one_way_fmap.
  rewrite <- (proj1 Hsame).
  apply list_fmap_ext. intros k i1 Hk.
  apply lookup_seq in Hk as [Hi1 Hk]. simpl in Hi1. subst i1.
  unfold accepted. rewrite (scan_row_ext d d' k) by assumption. reflexivity.
Qed.

Lemma FindBestMatches_ext d d' r md cc ms ms' :
  same_cells d d' → FindBestMatches d r md cc ms = FindBestMatches d' r md cc ms'.
Proof.
  intros Hsame. destruct cc.
  - rewrite !FindBestMatches_cross.
    rewrite (one_way_ext d d' r md Hsame).
    rewrite (one_way_ext _ _ r md (same_cells_transpose d d' Hsame)).
    destruct Hsame as (<- & _). reflexivity.
  - rewrite !FindBestMatches_plain.
    rewrite (one_way_ext d d' r md Hsame).
    destruct Hsame as (<- & _). reflexivity.
Qed.

(** ** More on the bidirectional matcher *)

Lemma cross_idx1_NoDup dists r md ms :
  NoDup (point2D_idx1 <$> FindBestMatches dists r md true ms).
Proof.
  rewrite FindBestMatches_cross, push_loop_idx1.
  apply NoDup_filter, NoDup_seq.
Qed.

Lemma cross_idx2_NoDup dists r md ms :
  NoDup (point2D_idx2 <$> FindBestMatches dists r md true ms).
Proof.
  apply NoDup_fmap_2_strong;
    [|exact (NoDup_fmap_1 _ _ (cross_idx1_NoDup dists r md ms))].
  intros [i1 i2] [i1' i2'] Hm Hm' Heq.
  cbn [point2D_idx2] in Heq. subst i2'.
  apply elem_of_FindBestMatches_cross in Hm as [_ Hb].
  apply elem_of_FindBestMatches_cross in Hm' as [_ Hb'].
  rewrite Hb in Hb'. injection Hb' as Hb'. apply Nat2Z.inj in Hb'. congruence.
Qed.

(** X5. With cross-check the match list is one-to-one: no index of set 1
    and no index of set 2 occurs in two matches. *)
Theorem cross_check_one_to_one dists r md ms :
  NoDup (point2D_idx1 <$> FindBestMatches dists r md true ms) ∧
  NoDup (point2D_idx2 <$> FindBestMatches dists r md true ms).
Proof.
  split; [apply cross_idx1_NoDup|apply cross_idx2_NoDup].
Qed.

(** X6. In both modes the matches come out in strictly increasing order
    of their set-1 index, each set-1 index is a row and each set-2 index
    a column of the matrix. *)
Theorem matches_ordered_in_bounds dists r md cc ms :
  (point2D_idx1 <$> FindBestMatches dists r md cc ms)
    `sublist_of` seq 0 (rows dists) ∧
  Forall (λ m, (point2D_idx2 m < cols dists)%nat)
    (FindBestMatches dists r md cc ms).
Proof.
  split.
  - destruct cc.
    + rewrite FindBestMatches_cross, push_loop_idx1. apply sublist_filter.
    + rewrite FindBestMatches_plain, push_loop_idx1. apply sublist_filter.
  - apply Forall_forall. intros [i1 i2] Hin.
    apply FindBestMatches_positive in Hin as (_ & Hi2 & _). exact Hi2.
Qed.

(** X7. Cross-checked matching is symmetric in the two sets: (i1, i2) is
    matched on a matrix exactly when (i2, i1) is matched on its
    transpose. *)
Theorem cross_check_symmetric dists r md ms ms' i1 i2 :
  mkFeatureMatch i1 i2 ∈ FindBestMatches dists r md true ms ↔
  mkFeatureMatch i2 i1 ∈ FindBestMatches (transpose dists) r md true ms'.
Proof.
  rewrite !elem_of_FindBestMatches_cross.
  rewrite (one_way_ext _ _ r md (same_cells_transpose_transpose dists)).
  tauto.
Qed.

Lemma length_push_loop (p : nat → bool) (v : nat → Z) n :
  length (for_loop n (λ i ms, if p i then push_match i (v i) ms else ms) []) =
  length (filter (λ i, Is_true (p i)) (seq 0 n)).
Proof. rewrite push_loop, app_nil_l, length_fmap. reflexivity. Qed.

Lemma filter_ext_in {A : Type} (P Q : A → Prop)
    `{∀ a, Decision (P a)} `{∀ a, Decision (Q a)} (l : list A) :
  (∀ a, a ∈ l → P a ↔ Q a) → filter P l = filter Q l.
Proof.
  induction l as [|a l IH]; intros HPQ; [reflexivity|].
  rewrite !filter_cons.
  pose proof (HPQ a ltac:(left)) as Ha.
  rewrite IH by (intros b Hb; apply HPQ; right; exact Hb).
  destruct (decide (P a)), (decide (Q a)); try reflexivity; tauto.
Qed.

Lemma one_way_total dists r md i1 :
  (i1 < rows dists)%nat →
  one_way dists r md !!! i1 =
  if accepted dists r md i1 then best_i2 (scan_row dists i1) else -1.
Proof.
  intros Hi1. apply list_lookup_total_correct, one_way_lookup, Hi1.
Qed.

(** The rows the loop without cross-check pushes are the accepted rows. *)
Lemma plain_rows dists r md :
  filter (λ i1, Is_true (negb (one_way dists r md !!! i1 =? -1)))
    (seq 0 (rows dists)) =
  filter (λ i1, Is_true (accepted dists r md i1)) (seq 0 (rows dists)).
Proof.
  apply filter_ext_in. intros i1 Hi1. apply elem_of_seq in Hi1.
  rewrite one_way_total by lia.
  destruct (accepted dists r md i1) eqn:Hacc; [|done].
  destruct (accepted_best _ _ _ _ Hacc) as (c & _ & -> & _).
  destruct (Z.eqb_spec (Z.of_nat c) (-1)); [lia|]. done.
Qed.

Lemma plain_length dists r md ms :
  length (FindBestMatches dists r md false ms) =
  fst (FindBestMatchesOneWay dists r md []).
Proof.
  rewrite FindBestMatches_plain, length_push_loop, FindBestMatchesOneWay_count.
  rewrite plain_rows. reflexivity.
Qed.

(** X8. The capacity reserved for the match list is never exceeded:
    without cross-check the list has exactly as many matches as the
    forward selector counted, with cross-check at most the smaller of
    the forward and the backward count. *)
Theorem reserve_suffices dists r md ms :
  length (FindBestMatches dists r md false ms) =
    fst (FindBestMatchesOneWay dists r md []) ∧
  (length (FindBestMatches dists r md true ms) ≤
     fst (FindBestMatchesOneWay dists r md []) `min`
     fst (FindBestMatchesOneWay (transpose dists) r md []))%nat.
Proof.
  split; [apply plain_length|].
  apply Nat.min_glb.
  - rewrite <- (plain_length dists r md ms). apply sublist_length.
    rewrite FindBestMatches_cross, FindBestMatches_plain.
    apply push_loop_sublist. intros i Hc. unfold cross_cond in Hc.
    apply andb_true_iff in Hc as [Hc _].
    apply andb_true_iff in Hc as [Hc _]. exact Hc.
  - rewrite FindBestMatchesOneWay_count.
    rewrite <- (length_fmap point2D_idx2).
    apply submseteq_length, NoDup_submseteq; [apply cross_idx2_NoDup|].
    intros i2 Hin. apply list_elem_of_fmap in Hin as ([i1 i2'] & -> & Hin).
    cbn [point2D_idx2].
    apply elem_of_FindBestMatches_cross in Hin as [_ Hb].
    destruct (one_way_matched _ _ _ _ _ Hb ltac:(lia)) as (Hi2 & Hacc & _).
    apply list_elem_of_filter. split; [rewrite Hacc; exact I|].
    apply elem_of_seq. lia.
Qed.

(** ** The reordering and the dot product *)

Lemma sum_ubc_source (f : nat → Z) :
  sum_n 128 (λ k, f (ubc_source k)) = sum_n 128 f.
Proof.
  cbn [sum_n].
  repeat match goal with
  | |- context [ubc_source ?n] =>
      let v := eval vm_compute in (ubc_source n) in
      change (ubc_source n) with v
  end.
  lia.
Qed.

Lemma transform_dot uninit1 uninit2 d1 d2 i1 i2 :
  (i1 < rows d1)%nat → (i2 < rows d2)%nat →
  dot (TransformVLFeatToUBCFeatureDescriptors uninit1 d1)
      (TransformVLFeatToUBCFeatureDescriptors uninit2 d2) i1 i2 =
  dot d1 d2 i1 i2.
Proof.
  intros Hi1 Hi2. unfold dot.
  rewrite <- (sum_ubc_source
    (λ k, cast_int (coeff d1 i1 k) * cast_int (coeff d2 i2 k))).
  apply sum_n_ext. intros k Hk.
  rewrite !transform_coeff by assumption. reflexivity.
Qed.

Lemma transform_coeff_cell uninit vl n cell k :
  (n < rows vl)%nat → (cell < 16)%nat → (k < 8)%nat →
  coeff (TransformVLFeatToUBCFeatureDescriptors uninit vl) n (8 * cell + q_at k) =
  coeff vl n (8 * cell + k).
Proof.
  intros Hn Hcell Hk.
  pose proof (q_at_lt k Hk) as Hq.
  rewrite transform_coeff by (assumption || lia). f_equal.
  unfold ubc_source.
  replace ((8 * cell + q_at k) / 8)%nat with cell
    by (apply (Nat.div_unique _ 8 cell (q_at k)); lia).
  replace ((8 * cell + q_at k) mod 8)%nat with (q_at k)
    by (apply (Nat.mod_unique _ 8 cell (q_at k)); lia).
  rewrite q_at_involutive by exact Hk. reflexivity.
Qed.

(** X9. On descriptors of 128 columns the reordering writes every cell:
    within each of the 16 cells of 8 bins, bin k of the input lands in
    bin q[k] of the output, so bins 0 and 4 stay and the others are
    mirrored; the shape is kept and nothing of the unwritten content of
    the fresh matrix survives. *)
Theorem ubc_transform_cells uninit vl n cell k :
  cols vl = 128%nat → (n < rows vl)%nat → (cell < 16)%nat → (k < 8)%nat →
  coeff (TransformVLFeatToUBCFeatureDescriptors uninit vl) n (8 * cell + q_at k) =
    coeff vl n (8 * cell + k) ∧
  rows (TransformVLFeatToUBCFeatureDescriptors uninit vl) = rows vl ∧
  cols (TransformVLFeatToUBCFeatureDescriptors uninit vl) = cols vl.
Proof.
  intros _ Hn Hcell Hk.
  split; [apply transform_coeff_cell; assumption|apply transform_dims].
Qed.

(** X10. The reordering preserves the dot product of any two
    descriptors, and so the squared norm of each. *)
Theorem ubc_transform_preserves_dot uninit1 uninit2 d1 d2 i1 i2 :
  (i1 < rows d1)%nat → (i2 < rows d2)%nat →
  dot (TransformVLFeatToUBCFeatureDescriptors uninit1 d1)
      (TransformVLFeatToUBCFeatureDescriptors uninit2 d2) i1 i2 =
    dot d1 d2 i1 i2 ∧
  norm2 (TransformVLFeatToUBCFeatureDescriptors uninit1 d1) i1 = norm2 d1 i1.
Proof.
  intros Hi1 Hi2. split; [apply transform_dot; assumption|].
  unfold norm2. apply transform_dot; assumption.
Qed.

(** ** More on the distance matrix *)

Lemma dot_sym d1 d2 i1 i2 : dot d1 d2 i1 i2 = dot d2 d1 i2 i1.
Proof. unfold dot. apply sum_n_ext. intros k _. apply Z.mul_comm. Qed.

(** Without a filter the keypoints are not looked at. *)
Lemma distance_matrix_unguided uninit kps1 kps2 d1 d2 :
  cols d1 = 128%nat → cols d2 = 128%nat →
  ∃ dists, ComputeSiftDistanceMatrix uninit kps1 kps2 d1 d2 None = Ok dists ∧
    rows dists = rows d1 ∧ cols dists = rows d2 ∧
    ∀ i j, (i < rows d1)%nat → (j < rows d2)%nat →
           coeff dists i j = dot d1 d2 i j.
Proof.
  intros Hc1 Hc2.
  destruct (distance_matrix_ok uninit kps1 kps2 d1 d2 None eq_refl Hc1 Hc2)
    as (dists & Hrun & Hr & Hc & Hcell).
  exists dists. repeat (split; [assumption|]).
  intros i j Hi Hj. rewrite Hcell by assumption. apply dist_cell_unguided.
Qed.

(** X11. On descriptors of 128 columns the builder fails exactly when a
    filter is supplied and a keypoint vector is missing or its length
    differs from the number of descriptors; without a filter it returns
    whatever the keypoint arguments are. *)
Theorem distance_matrix_fatal uninit kps1 kps2 d1 d2 (gf : GuidedFilter) :
  cols d1 = 128%nat → cols d2 = 128%nat →
  (ComputeSiftDistanceMatrix uninit kps1 kps2 d1 d2 gf = Fatal ↔
   is_Some gf ∧
   ¬ (∃ k1 k2, kps1 = Some k1 ∧ kps2 = Some k2 ∧
               length k1 = rows d1 ∧ length k2 = rows d2)).
Proof.
  intros Hc1 Hc2. unfold ComputeSiftDistanceMatrix.
  rewrite Hc1, Hc2. simpl.
  destruct gf as [g|]; simpl.
  - destruct kps1 as [k1|], kps2 as [k2|]; simpl.
    + destruct (Nat.eqb_spec (length k1) (rows d1)) as [Hl1|Hl1];
        destruct (Nat.eqb_spec (length k2) (rows d2)) as [Hl2|Hl2]; simpl.
      * split; [discriminate|]. intros [_ Hn]. exfalso. apply Hn. eauto 6.
      * split; [|done]. intros _. split; [eauto|].
        intros (? & ? & ? & ? & ? & ?). congruence.
      * split; [|done]. intros _. split; [eauto|].
        intros (? & ? & ? & ? & ? & ?). congruence.
      * split; [|done]. intros _. split; [eauto|].
        intros (? & ? & ? & ? & ? & ?). congruence.
    + split; [|done]. intros _. split; [eauto|].
      intros (? & ? & ? & ? & ? & ?). congruence.
    + split; [|done]. intros _. split; [eauto|].
      intros (? & ? & ? & ? & ? & ?). congruence.
    + split; [|done]. intros _. split; [eauto|].
      intros (? & ? & ? & ? & ? & ?). congruence.
  - split; [discriminate|]. intros [[? ?] _]. discriminate.
Qed.

(** ** MatchSiftFeaturesCPU *)

Lemma MatchSiftFeaturesCPU_ok uninit match_options d1 d2 ms :
  Check match_options = true → cols d1 = 128%nat → cols d2 = 128%nat →
  ∃ dists,
    rows dists = rows d1 ∧ cols dists = rows d2 ∧
    (∀ i j, (i < rows d1)%nat → (j < rows d2)%nat →
            coeff dists i j = dot d1 d2 i j) ∧
    MatchSiftFeaturesCPU uninit match_options d1 d2 ms =
    Ok (FindBestMatches dists (f_cast (max_ratio match_options))
          (f_cast (max_distance match_options)) (cross_check match_options) ms).
Proof.
  intros Hchk Hc1 Hc2.
  destruct (distance_matrix_unguided uninit None None d1 d2 Hc1 Hc2)
    as (dists & Hrun & Hr & Hc & Hcell).
  exists dists. repeat (split; [assumption|]).
  unfold MatchSiftFeaturesCPU. rewrite Hchk, Hrun. reflexivity.
Qed.

(** A forward result is the first maximum of its row. *)
Lemma one_way_max dists r md i1 c :
  one_way dists r md !! i1 = Some (Z.of_nat c) →
  (i1 < rows dists)%nat ∧ (c < cols dists)%nat ∧ 0 < coeff dists i1 c ∧
  (∀ j, (j < cols dists)%nat → coeff dists i1 j ≤ coeff dists i1 c) ∧
  (∀ j, (j < c)%nat → coeff dists i1 j < coeff dists i1 c).
Proof.
  intros Hl.
  destruct (one_way_matched _ _ _ _ _ Hl ltac:(lia)) as (Hi1 & Hacc & _).
  rewrite one_way_lookup, Hacc in Hl by exact Hi1. injection Hl as Hl.
  destruct (scan_row_full dists i1)
    as [(Hi & _)|(c' & Hc & Hi & Hb & Hpos & Hall & Hfirst & _)]; [lia|].
  assert (c' = c) as -> by lia. rewrite <- Hb. done.
Qed.

(** X12. With options that pass their check and descriptors of 128
    columns, plain matching returns normally. Every match (i1, i2) it
    returns names a descriptor of each set, their dot product is positive
    and is the largest that descriptor i1 has with any descriptor of
    set 2; with cross-check it is also the largest that descriptor i2 has
    with any descriptor of set 1. *)
Theorem match_sift_nearest uninit match_options d1 d2 ms :
  Check match_options = true → cols d1 = 128%nat → cols d2 = 128%nat →
  ∃ matches,
    MatchSiftFeaturesCPU uninit match_options d1 d2 ms = Ok matches ∧
    ∀ i1 i2, mkFeatureMatch i1 i2 ∈ matches →
      (i1 < rows d1)%nat ∧ (i2 < rows d2)%nat ∧ 0 < dot d1 d2 i1 i2 ∧
      (∀ j, (j < rows d2)%nat → dot d1 d2 i1 j ≤ dot d1 d2 i1 i2) ∧
      (cross_check match_options = true →
       ∀ i, (i < rows d1)%nat → dot d1 d2 i i2 ≤ dot d1 d2 i1 i2).
Proof.
  intros Hchk Hc1 Hc2.
  destruct (MatchSiftFeaturesCPU_ok uninit match_options d1 d2 ms Hchk Hc1 Hc2)
    as (dists & Hr & Hc & Hcell & Hrun).
  eexists. split; [exact Hrun|].
  intros i1 i2 Hin.
  pose proof (FindBestMatches_forward _ _ _ _ _ _ _ Hin) as Hfwd.
  destruct (one_way_max _ _ _ _ _ Hfwd) as (Hi1 & Hi2 & Hpos & Hmax & _).
  rewrite Hr in Hi1. rewrite Hc in Hi2, Hmax.
  rewrite Hcell in Hpos by assumption.
  repeat (split; [assumption|]). split.
  - intros j Hj. specialize (Hmax j Hj).
    rewrite !Hcell in Hmax by assumption. exact Hmax.
  - intros Hcc i Hi. rewrite Hcc in Hin.
    apply elem_of_FindBestMatches_cross in Hin as [_ Hbwd].
    destruct (one_way_max _ _ _ _ _ Hbwd) as (_ & _ & _ & Hmax' & _).
    simpl in Hmax'. specialize (Hmax' i ltac:(lia)).
    rewrite !Hcell in Hmax' by assumption. exact Hmax'.
Qed.

Lemma cross_symmetric_aux dists dists' r md ms ms' i1 i2 :
  same_cells dists' (transpose dists) →
  mkFeatureMatch i1 i2 ∈ FindBestMatches dists r md true ms ↔
  mkFeatureMatch i2 i1 ∈ FindBestMatches dists' r md true ms'.
Proof.
  intros Hsame. rewrite !elem_of_FindBestMatches_cross.
  rewrite (one_way_ext _ _ r md Hsame).
  rewrite (one_way_ext _ _ r md (same_cells_transpose _ _ Hsame)).
  rewrite (one_way_ext _ _ r md (same_cells_transpose_transpose dists)).
  tauto.
Qed.

(** X13. With cross-check, matching is symmetric in the two images:
    matching set 2 against set 1 returns (i2, i1) exactly when matching
    set 1 against set 2 returns (i1, i2). *)
Theorem match_sift_symmetric uninit uninit' match_options d1 d2 ms ms' :
  Check match_options = true → cross_check match_options = true →
  cols d1 = 128%nat → cols d2 = 128%nat →
  ∃ matches12 matches21,
    MatchSiftFeaturesCPU uninit match_options d1 d2 ms = Ok matches12 ∧
    MatchSiftFeaturesCPU uninit' match_options d2 d1 ms' = Ok matches21 ∧
    ∀ i1 i2, mkFeatureMatch i1 i2 ∈ matches12 ↔ mkFeatureMatch i2 i1 ∈ matches21.
Proof.
  intros Hchk Hcc Hc1 Hc2.
  destruct (MatchSiftFeaturesCPU_ok uninit match_options d1 d2 ms Hchk Hc1 Hc2)
    as (dists & Hr & Hc & Hcell & Hrun).
  destruct (MatchSiftFeaturesCPU_ok uninit' match_options d2 d1 ms' Hchk Hc2 Hc1)
    as (dists' & Hr' & Hc' & Hcell' & Hrun').
  eexists _, _. split; [exact Hrun|]. split; [exact Hrun'|].
  intros i1 i2. rewrite Hcc. apply cross_symmetric_aux.
  split; [simpl; congruence|]. split; [simpl; congruence|].
  intros i j Hi Hj. simpl.
  rewrite Hcell' by lia. rewrite Hcell by lia. apply dot_sym.
Qed.

(** X14. Reordering both descriptor sets does not change the result of
    matching. *)
Theorem match_sift_ubc_invariant uninit uninit1 uninit2 match_options d1 d2 ms :
  Check match_options = true → cols d1 = 128%nat → cols d2 = 128%nat →
  ∃ matches,
    MatchSiftFeaturesCPU uninit match_options d1 d2 ms = Ok matches ∧
    MatchSiftFeaturesCPU uninit match_options
      (TransformVLFeatToUBCFeatureDescriptors uninit1 d1)
      (TransformVLFeatToUBCFeatureDescriptors uninit2 d2) ms = Ok matches.
Proof.
  intros Hchk Hc1 Hc2.
  destruct (MatchSiftFeaturesCPU_ok uninit match_options d1 d2 ms Hchk Hc1 Hc2)
    as (dists & Hr & Hc & Hcell & Hrun).
  destruct (transform_dims uninit1 d1) as [Hr1 Hcol1].
  destruct (transform_dims uninit2 d2) as [Hr2 Hcol2].
  destruct (MatchSiftFeaturesCPU_ok uninit match_options
              (TransformVLFeatToUBCFeatureDescriptors uninit1 d1)
              (TransformVLFeatToUBCFeatureDescriptors uninit2 d2) ms Hchk
              ltac:(congruence) ltac:(congruence))
    as (dists' & Hr' & Hc' & Hcell' & Hrun').
  eexists. split; [exact Hrun|]. rewrite Hrun'. f_equal.
  apply FindBestMatches_ext.
  split; [congruence|]. split; [congruence|].
  intros i j Hi Hj.
  rewrite Hcell' by lia. rewrite Hcell by lia.
  apply transform_dot; lia.
Qed.

(** X15. A matrix without rows or without columns gives no match, so an
    empty descriptor set on either side makes plain matching return the
    empty list. *)
Theorem match_sift_empty uninit match_options d1 d2 ms :
  Check match_options = true → cols d1 = 128%nat → cols d2 = 128%nat →
  rows d1 = 0%nat ∨ rows d2 = 0%nat →
  MatchSiftFeaturesCPU uninit match_options d1 d2 ms = Ok [].
Proof.
  intros Hchk Hc1 Hc2 Hempty.
  destruct (MatchSiftFeaturesCPU_ok uninit match_options d1 d2 ms Hchk Hc1 Hc2)
    as (dists & Hr & Hc & Hcell & Hrun).
  rewrite Hrun. f_equal.
  destruct (FindBestMatches dists _ _ _ ms) as [|[i1 i2] l] eqn:Hl; [reflexivity|].
  assert (mkFeatureMatch i1 i2 ∈ FindBestMatches dists
            (f_cast (max_ratio match_options))
            (f_cast (max_distance match_options))
            (cross_check match_options) ms) as Hin by (rewrite Hl; left).
  apply FindBestMatches_positive in Hin as (Hi1 & Hi2 & _). lia.
Qed.

(** ** More on the guided matching controller *)

Lemma select_guided_filter_named match_options two_view_geometry :
  (∀ tag, config two_view_geometry ≠ OtherConfig tag) →
  ∃ g, select_guided_filter match_options two_view_geometry = Some g.
Proof.
  intros Hnamed. unfold select_guided_filter.
  destruct (config two_view_geometry) as [| | | | |tag]; eauto.
  exfalso. apply (Hnamed tag). reflexivity.
Qed.

(** X17. For one of the five named configurations, valid options and
    descriptors of 128 columns, the controller fails exactly when the
    number of keypoints of an image differs from its number of
    descriptors. Otherwise it returns the geometry with the same
    configuration and matrices and with a match list that does not
    depend on the list stored before the call. *)
Theorem match_guided_outcome uninit match_options keypoints1 keypoints2
    descriptors1 descriptors2 cfg F0 H0 :
  Check match_options = true →
  cols descriptors1 = 128%nat → cols descriptors2 = 128%nat →
  (∀ tag, cfg ≠ OtherConfig tag) →
  (length keypoints1 = rows descriptors1 ∧ length keypoints2 = rows descriptors2 →
   ∃ matches, ∀ previous,
     MatchGuidedSiftFeaturesCPU uninit match_options keypoints1 keypoints2
       descriptors1 descriptors2 (mkTwoViewGeometry cfg F0 H0 previous) =
     Ok (mkTwoViewGeometry cfg F0 H0 matches)) ∧
  (¬ (length keypoints1 = rows descriptors1 ∧
      length keypoints2 = rows descriptors2) →
   ∀ previous,
     MatchGuidedSiftFeaturesCPU uninit match_options keypoints1 keypoints2
       descriptors1 descriptors2 (mkTwoViewGeometry cfg F0 H0 previous) = Fatal).
Proof.
  intros Hchk Hc1 Hc2 Hnamed.
  assert (∀ previous,
    select_guided_filter match_options (mkTwoViewGeometry cfg F0 H0 previous) =
    select_guided_filter match_options (mkTwoViewGeometry cfg F0 H0 [])) as Hsel
    by reflexivity.
  destruct (select_guided_filter_named match_options
              (mkTwoViewGeometry cfg F0 H0 []) Hnamed) as [g Hg].
  split.
  - intros [Hl1 Hl2].
    assert (guided_checks (Some keypoints1) (Some keypoints2)
              descriptors1 descriptors2 (Some g) = true) as Hgc.
    { simpl. rewrite Hl1, Hl2, !Nat.eqb_refl. reflexivity. }
    destruct (distance_matrix_ok uninit _ _ _ _ _ Hgc Hc1 Hc2)
      as (dists & Hrun & _).
    exists (FindBestMatches dists (f_cast (max_ratio match_options))
              (f_cast (max_distance match_options))
              (cross_check match_options) []).
    intros previous. unfold MatchGuidedSiftFeaturesCPU.
    rewrite Hchk. cbn [negb]. rewrite (Hsel previous), Hg.
    cbv beta iota. unfold FeatureKeypoints in *.
    rewrite Hrun. reflexivity.
  - intros Hne previous. unfold MatchGuidedSiftFeaturesCPU.
    rewrite Hchk. cbn [negb]. rewrite (Hsel previous), Hg. cbv beta iota.
    unfold FeatureKeypoints in *.
    destruct (ComputeSiftDistanceMatrix uninit (Some keypoints1)
                (Some keypoints2) descriptors1 descriptors2 (Some g))
      as [dists|] eqn:Hrun; [|reflexivity].
    exfalso. apply Hne.
    destruct (distance_matrix_inv _ _ _ _ _ _ _ Hrun) as (Hgc & _).
    simpl in Hgc. apply andb_true_iff in Hgc as [Hl1 Hl2].
    apply Nat.eqb_eq in Hl1, Hl2. done.
Qed.

(** ** ExtractSiftFeaturesCPU: the levels that are kept *)

Lemma for_range_drop {S A : Type} `{Inhabited A} (l : list A) first
    (g : A → S → S) s :
  for_range first (length l) (λ i st, g (l !!! i) st) s =
  foldl (λ st a, g a st) s (drop first l).
Proof.
  unfold for_range.
  replace (drop first l) with ((λ i, l !!! i) <$> seq first (length l - first)).
  - generalize (seq first (length l - first)). intros idx. revert s.
    induction idx as [|i idx IH]; intros s; [reflexivity|]. simpl. apply IH.
  - apply list_eq. intros p. rewrite list_lookup_fmap, lookup_drop.
    destruct (decide (p < length l - first)%nat) as [Hlt|Hge].
    + rewrite lookup_seq_lt by exact Hlt. simpl.
      symmetry. apply list_lookup_lookup_total_lt. lia.
    + rewrite lookup_seq_ge by lia. simpl.
      symmetry. apply lookup_ge_None. lia.
Qed.

Lemma for_range_shift {S : Type} first last (body : nat → S → S) s :
  for_range first last body s =
  for_loop (last - first) (λ t acc, body (first + t)%nat acc) s.
Proof.
  unfold for_range, for_loop.
  replace (seq first (last - first))
    with (Nat.add first <$> seq 0 (last - first))
    by (rewrite fmap_add_seq; f_equal; lia).
  generalize (seq 0 (last - first)). intros idx. revert s.
  induction idx as [|i idx IH]; intros s; [reflexivity|]. simpl. apply IH.
Qed.

Lemma sum_list_drop_S (l : list nat) i :
  (i < length l)%nat →
  sum_list (drop i l) = (l !!! i + sum_list (drop (S i) l))%nat.
Proof.
  intros Hi. destruct (lookup_lt_is_Some_2 l i Hi) as [v Hv].
  rewrite (drop_S l v i Hv), (list_lookup_total_correct _ _ _ Hv). reflexivity.
Qed.

Lemma sum_list_drop_le (l : list nat) i : (sum_list (drop i l) ≤ sum_list l)%nat.
Proof.
  rewrite <- (take_drop i l) at 2. rewrite sum_list_with_app. lia.
Qed.

(** The levels counted by the descending loop, started at level [i] with
    the sums of the levels above it. *)
Lemma count_levels_spec max_num_features lnf (lk : list (list FeatureKeypoint))
    i first nf nfo :
  length lnf = length lk → (i ≤ length lk)%nat →
  Z.of_nat (sum_list lnf) < 2 ^ 31 →
  Z.of_nat (sum_list (length <$> lk)) < 2 ^ 31 →
  nf = Z.of_nat (sum_list (drop i lnf)) →
  nfo = Z.of_nat (sum_list (length <$> drop i lk)) →
  nf ≤ max_num_features →
  (count_levels max_num_features lnf lk i first nf nfo =
     (first, Z.of_nat (sum_list lnf), Z.of_nat (sum_list (length <$> lk))) ∧
   Z.of_nat (sum_list lnf) ≤ max_num_features) ∨
  (∃ f, (f < i)%nat ∧
     count_levels max_num_features lnf lk i first nf nfo =
       (Z.of_nat f, Z.of_nat (sum_list (drop f lnf)),
        Z.of_nat (sum_list (length <$> drop f lk))) ∧
     max_num_features < Z.of_nat (sum_list (drop f lnf)) ∧
     Z.of_nat (sum_list (drop (S f) lnf)) ≤ max_num_features).
Proof.
  intros Hlen Hi Hb1 Hb2. revert nf nfo.
  induction i as [|i IH]; intros nf nfo Hnf Hnfo Hle.
  - left. simpl in *. subst. done.
  - simpl.
    assert (sum_list (drop i lnf) = (lnf !!! i + sum_list (drop (S i) lnf))%nat)
      as Hs1 by (apply sum_list_drop_S; lia).
    assert (sum_list (length <$> drop i lk) =
            (length (lk !!! i) + sum_list (length <$> drop (S i) lk))%nat) as Hs2.
    { rewrite !fmap_drop, sum_list_drop_S by (rewrite length_fmap; lia).
      f_equal. apply (list_lookup_total_fmap length lk i). lia. }
    pose proof (sum_list_drop_le lnf i) as Hd1.
    pose proof (sum_list_drop_le (length <$> lk) i) as Hd2.
    rewrite <- fmap_drop in Hd2.
    rewrite !int32_small by lia.
    replace (nf + Z.of_nat (lnf !!! i)) with (Z.of_nat (sum_list (drop i lnf)))
      by lia.
    replace (nfo + Z.of_nat (length (lk !!! i)))
      with (Z.of_nat (sum_list (length <$> drop i lk))) by lia.
    destruct (Z.gtb_spec (Z.of_nat (sum_list (drop i lnf))) max_num_features)
      as [Hgt|Hle'].
    + right. exists i. split; [lia|]. split; [reflexivity|]. lia.
    + destruct (IH ltac:(lia) _ _ eq_refl eq_refl Hle') as [Hall|(f & Hf & Hrun & Hcap)].
      * left. exact Hall.
      * right. exists f. split; [lia|]. split; assumption.
Qed.

(** ** ExtractSiftFeaturesCPU: the keypoints that are copied *)

Lemma copy_keypoints_spec (level : list FeatureKeypoint) k out :
  (k + length level ≤ length out)%nat →
  copy_keypoints level (k, out) =
  ((k + length level)%nat,
   take k out ++ level ++ drop (k + length level) out).
Proof.
  intros Hlen. unfold copy_keypoints.
  enough (∀ n, (n ≤ length level)%nat →
    for_loop n (λ j (st : nat * list FeatureKeypoint),
      (S (fst st), <[fst st := level !!! j]> (snd st))) (k, out) =
    ((k + n)%nat, take k out ++ take n level ++ drop (k + n) out)) as Hloop.
  { rewrite (Hloop (length level)) by lia. rewrite firstn_all. reflexivity. }
  induction n as [|n IH]; intros Hn.
  - simpl. rewrite Nat.add_0_r, take_drop. reflexivity.
  - rewrite for_loop_S, IH by lia. cbn [fst snd]. f_equal; [lia|].
    destruct (lookup_lt_is_Some_2 level n ltac:(lia)) as [v Hv].
    destruct (lookup_lt_is_Some_2 out (k + n) ltac:(lia)) as [w Hw].
    rewrite (list_lookup_total_correct _ _ _ Hv).
    rewrite (take_S_r level n v Hv).
    rewrite (drop_S out w (k + n) Hw).
    rewrite insert_app_r_alt by (rewrite length_take; lia).
    rewrite insert_app_r_alt by (rewrite !length_take; lia).
    rewrite !length_take.
    replace (k + n - k `min` length out - n `min` length level)%nat with 0%nat by lia.
    simpl. rewrite <- app_assoc. simpl.
    replace (k + S n)%nat with (S (k + n)) by lia. reflexivity.
Qed.

Lemma copy_all_keypoints (levels : list (list FeatureKeypoint)) k out :
  (k + length (concat levels) ≤ length out)%nat →
  foldl (λ st level, copy_keypoints level st) (k, out) levels =
  ((k + length (concat levels))%nat,
   take k out ++ concat levels ++ drop (k + length (concat levels)) out).
Proof.
  revert k out. induction levels as [|level levels IH]; intros k out Hlen.
  - simpl. rewrite Nat.add_0_r, take_drop. reflexivity.
  - simpl in *. rewrite length_app in Hlen.
    rewrite copy_keypoints_spec by lia.
    rewrite IH by (rewrite !length_app, length_take, length_drop; lia).
    rewrite length_app. f_equal; [lia|].
    rewrite (app_assoc (take k out) level).
    assert ((k + length level)%nat = length (take k out ++ level)) as Hpre
      by (rewrite length_app, length_take; lia).
    rewrite (take_app_length' _ _ _ Hpre).
    rewrite (drop_app_add' _ _ _ (length (concat levels)) Hpre).
    rewrite drop_drop, <- !app_assoc.
    replace (k + (length level + length (concat levels)))%nat
      with (k + length level + length (concat levels))%nat by lia.
    reflexivity.
Qed.

Lemma length_concat_sum {A : Type} (l : list (list A)) :
  length (concat l) = sum_list (length <$> l).
Proof.
  induction l as [|x l IH]; [reflexivity|].
  simpl. rewrite length_app, IH. reflexivity.
Qed.

Lemma level_offset_S {A : Type} `{Inhabited A} (levels : list (list A)) t :
  (t < length levels)%nat →
  level_offset levels (S t) =
  (level_offset levels t + length (levels !!! t))%nat.
Proof.
  intros Ht. unfold level_offset.
  destruct (lookup_lt_is_Some_2 levels t Ht) as [lv Hlv].
  rewrite (take_S_r levels t lv Hlv), concat_app, length_app.
  rewrite (list_lookup_total_correct _ _ _ Hlv). simpl.
  rewrite app_nil_r. reflexivity.
Qed.

Lemma level_offset_mono {A : Type} (levels : list (list A)) t t' :
  (t ≤ t')%nat → (level_offset levels t ≤ level_offset levels t')%nat.
Proof.
  intros Hle. unfold level_offset.
  replace t' with (t + (t' - t))%nat by lia.
  rewrite <- take_take_drop, concat_app, length_app. lia.
Qed.

(** ** ExtractSiftFeaturesCPU: the descriptors that are copied *)

Lemma copy_descriptors_spec n (level : FeatureDescriptors) k m :
  let st := copy_descriptors n level (k, m) in
  fst st = (k + n)%nat ∧ rows (snd st) = rows m ∧ cols (snd st) = cols m ∧
  (∀ j c, (j < n)%nat → coeff (snd st) (k + j) c = coeff level j c) ∧
  (∀ r c, ¬ (k ≤ r < k + n)%nat → coeff (snd st) r c = coeff m r c).
Proof.
  cbv zeta. unfold copy_descriptors.
  apply (for_loop_ind (λ n' (st : nat * FeatureDescriptors),
    fst st = (k + n')%nat ∧ rows (snd st) = rows m ∧ cols (snd st) = cols m ∧
    (∀ j c, (j < n')%nat → coeff (snd st) (k + j) c = coeff level j c) ∧
    (∀ r c, ¬ (k ≤ r < k + n')%nat → coeff (snd st) r c = coeff m r c))).
  - simpl. split; [lia|]. split; [done|]. split; [done|].
    split; [intros j c Hj; lia|done].
  - intros j [k' m'] _ (Hk & Hr & Hc & Hin & Hout). simpl in *. subst k'.
    split; [lia|]. split; [done|]. split; [done|]. split.
    + intros j' c Hj'. destruct (Nat.eqb_spec (k + j') (k + j)) as [Heq|Hne].
      * f_equal. lia.
      * apply Hin. lia.
    + intros r c Hr'. destruct (Nat.eqb_spec r (k + j)) as [->|Hne]; [lia|].
      apply Hout. lia.
Qed.

(** After the loop over the kept levels, row [level_offset t + j] of the
    matrix holds row [j] of the descriptors of level [first + t]. *)
Lemma copy_all_descriptors (lk : list (list FeatureKeypoint))
    (ld : list FeatureDescriptors) first m :
  let st := for_range first (length lk)
              (λ i st, copy_descriptors (length (lk !!! i)) (ld !!! i) st)
              (0%nat, m) in
  rows (snd st) = rows m ∧ cols (snd st) = cols m ∧
  ∀ t j c, (t < length lk - first)%nat →
           (j < length (drop first lk !!! t))%nat →
           coeff (snd st) (level_offset (drop first lk) t + j) c =
           coeff (ld !!! (first + t)%nat) j c.
Proof.
  cbv zeta. rewrite for_range_shift.
  set (D := drop first lk).
  enough (∀ T, (T ≤ length lk - first)%nat →
    let st := for_loop T (λ t st,
                copy_descriptors (length (lk !!! (first + t)%nat))
                  (ld !!! (first + t)%nat) st) (0%nat, m) in
    fst st = level_offset D T ∧
    rows (snd st) = rows m ∧ cols (snd st) = cols m ∧
    ∀ t j c, (t < T)%nat → (j < length (D !!! t))%nat →
             coeff (snd st) (level_offset D t + j) c =
             coeff (ld !!! (first + t)%nat) j c) as Hloop.
  { destruct (Hloop (length lk - first)%nat ltac:(lia)) as (_ & Hr & Hc & Hcell).
    split; [exact Hr|]. split; [exact Hc|]. exact Hcell. }
  assert (length D = (length lk - first)%nat) as HD
    by (unfold D; apply length_drop).
  induction T as [|T IH]; intros HT.
  - simpl. repeat (split; [reflexivity|]). intros t j c Ht. lia.
  - cbv zeta. rewrite for_loop_S.
    destruct (IH ltac:(lia)) as (Hk & Hr & Hc & Hcell).
    destruct (for_loop T _ (0%nat, m)) as [k m'] eqn:Hst. simpl in Hk, Hr, Hc, Hcell.
    destruct (copy_descriptors_spec (length (lk !!! (first + T)%nat))
                (ld !!! (first + T)%nat) k m') as (Hk' & Hr' & Hc' & Hin & Hout).
    assert (lk !!! (first + T)%nat = D !!! T) as HlkT
      by (unfold D; rewrite lookup_total_drop; reflexivity).
    rewrite HlkT in *.
    pose proof (level_offset_S D T ltac:(lia)) as HS.
    split; [lia|]. split; [congruence|]. split; [congruence|].
    intros t j c Ht Hj.
    destruct (decide (t = T)) as [->|Hne].
    + rewrite <- Hk. apply Hin. exact Hj.
    + pose proof (level_offset_S D t ltac:(lia)) as HSt.
      pose proof (level_offset_mono D (S t) T ltac:(lia)) as Hmono.
      rewrite Hout by lia. apply Hcell; [lia|exact Hj].
Qed.

Lemma concat_lookup_offset {A : Type} `{Inhabited A} (levels : list (list A)) t j :
  (t < length levels)%nat → (j < length (levels !!! t))%nat →
  concat levels !! (level_offset levels t + j)%nat = Some ((levels !!! t) !!! j).
Proof.
  intros Ht Hj. unfold level_offset.
  destruct (lookup_lt_is_Some_2 levels t Ht) as [lv Hlv].
  rewrite (list_lookup_total_correct _ _ _ Hlv) in *.
  replace (concat levels)
    with (concat (take t levels) ++ lv ++ concat (drop (S t) levels))
    by (rewrite <- (take_drop_middle levels t lv Hlv) at 3;
        rewrite concat_app; reflexivity).
  rewrite lookup_app_r by lia.
  replace (length (concat (take t levels)) + j - length (concat (take t levels)))%nat
    with j by lia.
  rewrite lookup_app_l by exact Hj.
  apply list_lookup_lookup_total_lt, Hj.
Qed.

(** What the tail of the function returns, level by level. *)
Lemma collect_levels_unfold default_keypoint uninit uninit' max_num_features
    lnf (lk : list (list FeatureKeypoint)) ld keypoints descriptors :
  length lnf = length lk → 0 ≤ max_num_features →
  Z.of_nat (sum_list lnf) < 2 ^ 31 →
  Z.of_nat (sum_list (length <$> lk)) < 2 ^ 31 →
  ∃ f, (f ≤ length lk)%nat ∧
    (Z.of_nat (sum_list lnf) ≤ max_num_features → f = 0%nat) ∧
    (max_num_features < Z.of_nat (sum_list lnf) →
     (f < length lk)%nat ∧
     max_num_features < Z.of_nat (sum_list (drop f lnf)) ∧
     Z.of_nat (sum_list (drop (S f) lnf)) ≤ max_num_features) ∧
    collect_levels default_keypoint uninit uninit' max_num_features lnf lk ld
      keypoints descriptors =
    (Z.of_nat f, concat (drop f lk),
     match descriptors with
     | None => None
     | Some _ =>
         Some (TransformVLFeatToUBCFeatureDescriptors uninit'
                 (snd (for_range f (length lk)
                         (λ i st, copy_descriptors (length (lk !!! i))
                                    (ld !!! i) st)
                         (0%nat, mkMatrix (length (concat (drop f lk))) 128
                                   uninit))))
     end).
Proof.
  intros Hlen Hmax Hb1 Hb2.
  assert (∃ f, (f ≤ length lk)%nat ∧
    (Z.of_nat (sum_list lnf) ≤ max_num_features → f = 0%nat) ∧
    (max_num_features < Z.of_nat (sum_list lnf) →
     (f < length lk)%nat ∧
     max_num_features < Z.of_nat (sum_list (drop f lnf)) ∧
     Z.of_nat (sum_list (drop (S f) lnf)) ≤ max_num_features) ∧
    ∃ nf, count_levels max_num_features lnf lk (length lk) 0 0 0 =
          (Z.of_nat f, nf, Z.of_nat (length (concat (drop f lk)))))
    as (f & Hf & Hall & Hcap & nf & Hcount).
  { destruct (count_levels_spec max_num_features lnf lk (length lk) 0 0 0
                Hlen ltac:(lia) Hb1 Hb2)
      as [[Hrun Hle]|(f & Hf & Hrun & Hgt & Hle)].
    - rewrite drop_ge by lia. reflexivity.
    - rewrite drop_ge by lia. reflexivity.
    - exact Hmax.
    - exists 0%nat. split; [lia|]. split; [done|]. split; [lia|].
      eexists. rewrite Hrun, drop_0, length_concat_sum. reflexivity.
    - exists f. split; [lia|].
      pose proof (sum_list_drop_le lnf f).
      split; [lia|]. split; [intros _; split; [lia|]; split; assumption|].
      eexists. rewrite Hrun, length_concat_sum. reflexivity. }
  exists f. split; [exact Hf|]. split; [exact Hall|]. split; [exact Hcap|].
  unfold collect_levels. rewrite Hcount, !Nat2Z.id.
  f_equal. f_equal.
  rewrite (for_range_drop lk f (λ level st, copy_keypoints level st)).
  pose proof (copy_all_keypoints (drop f lk) 0
                (resize (length (concat (drop f lk))) default_keypoint keypoints))
    as Hcopy.
  rewrite length_resize in Hcopy. rewrite (Hcopy ltac:(lia)).
  cbn [snd]. rewrite Nat.add_0_l.
  rewrite (drop_ge (resize _ _ _)) by (rewrite length_resize; lia).
  rewrite app_nil_r. reflexivity.
Qed.

(** X20. When all levels together hold at most max_num_features
    features, every level is kept. Otherwise the levels kept are the
    shortest run of last levels whose features exceed max_num_features:
    the level that crosses the limit is kept whole, so the features kept
    number more than max_num_features. *)
Theorem levels_kept default_keypoint uninit uninit' max_num_features
    lnf (lk : list (list FeatureKeypoint)) ld keypoints descriptors :
  length lnf = length lk → 0 ≤ max_num_features →
  Z.of_nat (sum_list lnf) < 2 ^ 31 →
  Z.of_nat (sum_list (length <$> lk)) < 2 ^ 31 →
  ∃ f, fst (fst (collect_levels default_keypoint uninit uninit'
                   max_num_features lnf lk ld keypoints descriptors)) =
       Z.of_nat f ∧
    (Z.of_nat (sum_list lnf) ≤ max_num_features → f = 0%nat) ∧
    (max_num_features < Z.of_nat (sum_list lnf) →
     (f < length lk)%nat ∧
     max_num_features < Z.of_nat (sum_list (drop f lnf)) ∧
     Z.of_nat (sum_list (drop (S f) lnf)) ≤ max_num_features).
Proof.
  intros Hlen Hmax Hb1 Hb2.
  destruct (collect_levels_unfold default_keypoint uninit uninit'
              max_num_features lnf lk ld keypoints descriptors Hlen Hmax Hb1 Hb2)
    as (f & _ & Hall & Hcap & Hrun).
  exists f. rewrite Hrun. done.
Qed.

(** X21. The keypoints returned are exactly the keypoints of the kept
    levels, level after level in their order: nothing the vector held
    before the call and no default-constructed keypoint is left in it. *)
Theorem keypoints_collected default_keypoint uninit uninit' max_num_features
    lnf (lk : list (list FeatureKeypoint)) ld keypoints descriptors :
  length lnf = length lk → 0 ≤ max_num_features →
  Z.of_nat (sum_list lnf) < 2 ^ 31 →
  Z.of_nat (sum_list (length <$> lk)) < 2 ^ 31 →
  let out := collect_levels default_keypoint uninit uninit' max_num_features
               lnf lk ld keypoints descriptors in
  snd (fst out) = concat (drop (Z.to_nat (fst (fst out))) lk).
Proof.
  intros Hlen Hmax Hb1 Hb2. cbv zeta.
  destruct (collect_levels_unfold default_keypoint uninit uninit'
              max_num_features lnf lk ld keypoints descriptors Hlen Hmax Hb1 Hb2)
    as (f & _ & _ & _ & Hrun).
  rewrite Hrun. simpl. rewrite Nat2Z.id. reflexivity.
Qed.

(** X22. When descriptors are requested, the descriptor matrix returned
    has one row of 128 columns per keypoint returned, and row k belongs
    to keypoint k: for keypoint j of a kept level i, both sit at the index
    that counts the keypoints of the kept levels before i plus j, and the
    row is the descriptor j of level i with the bins of each cell
    reordered. *)
Theorem descriptors_aligned default_keypoint uninit uninit' max_num_features
    lnf (lk : list (list FeatureKeypoint)) ld keypoints descriptors0 :
  length lnf = length lk → 0 ≤ max_num_features →
  Z.of_nat (sum_list lnf) < 2 ^ 31 →
  Z.of_nat (sum_list (length <$> lk)) < 2 ^ 31 →
  ∃ f kps descriptors,
    collect_levels default_keypoint uninit uninit' max_num_features lnf lk ld
      keypoints (Some descriptors0) = (Z.of_nat f, kps, Some descriptors) ∧
    rows descriptors = length kps ∧ cols descriptors = 128%nat ∧
    ∀ i j, (f ≤ i < length lk)%nat → (j < length (lk !!! i))%nat →
      let k := (level_offset (drop f lk) (i - f) + j)%nat in
      kps !! k = Some ((lk !!! i) !!! j) ∧
      ∀ cell b, (cell < 16)%nat → (b < 8)%nat →
        coeff descriptors k (8 * cell + q_at b) =
        coeff (ld !!! i) j (8 * cell + b).
Proof.
  intros Hlen Hmax Hb1 Hb2.
  destruct (collect_levels_unfold default_keypoint uninit uninit'
              max_num_features lnf lk ld keypoints (Some descriptors0)
              Hlen Hmax Hb1 Hb2) as (f & Hf & _ & _ & Hrun).
  eexists f, _, _. split; [exact Hrun|].
  destruct (copy_all_descriptors lk ld f
              (mkMatrix (length (concat (drop f lk))) 128 uninit))
    as (Hr & Hc & Hcell).
  set (m := snd (for_range f (length lk)
                   (λ i st, copy_descriptors (length (lk !!! i)) (ld !!! i) st)
                   (0%nat, mkMatrix (length (concat (drop f lk))) 128 uninit)))
    in *.
  destruct (transform_dims uninit' m) as [Hr' Hc'].
  assert (rows m = length (concat (drop f lk))) as Hrm by exact Hr.
  assert (cols m = 128%nat) as Hcm by exact Hc.
  split; [rewrite Hr', Hrm; reflexivity|].
  split; [rewrite Hc', Hcm; reflexivity|].
  intros i j Hi Hj. cbv zeta.
  assert (lk !!! i = drop f lk !!! (i - f)%nat) as Hlvl
    by (rewrite lookup_total_drop; f_equal; lia).
  assert (i - f < length (drop f lk))%nat as Ht by (rewrite length_drop; lia).
  assert (level_offset (drop f lk) (i - f) + j < length (concat (drop f lk)))%nat
    as Hk.
  { apply lookup_lt_is_Some. rewrite concat_lookup_offset; [eauto|exact Ht|].
    rewrite <- Hlvl. exact Hj. }
  split.
  - rewrite Hlvl. apply concat_lookup_offset; [exact Ht|].
    rewrite <- Hlvl. exact Hj.
  - intros cell b Hcell' Hb.
    rewrite transform_coeff_cell by (assumption || (rewrite Hrm; exact Hk)).
    rewrite Hcell by (rewrite <- ?Hlvl; lia || exact Hj).
    do 2 f_equal. lia.
Qed.

(** ** ExtractCovariantSiftFeaturesCPU: the keypoints that are copied *)

(** X23. When the copy loop returns, the vector holds what it held
    before followed by the keypoints of a prefix of the features, in
    their order, and the indices octave * 1000 + scale of that prefix do
    not increase. If the prefix is proper, the vector has reached
    max_num_features keypoints and the last feature copied has another
    index than the one before it: the loop stops only after it copied the
    first feature of a new level. *)
Theorem covariant_copy_prefix add_half max_num_features features keypoints out :
  copy_features add_half max_num_features features INT_MAX keypoints = Ok out →
  ∃ m, (m ≤ length features)%nat ∧
    out = keypoints ++ (keypoint_of_feature add_half <$> take m features) ∧
    descending INT_MAX (take m features) ∧
    ((m < length features)%nat →
     to_size_t max_num_features ≤ Z.of_nat (length out) ∧
     last_starts_level INT_MAX (take m features)).
Proof.
  generalize INT_MAX as prev. revert keypoints.
  induction features as [|feature features IH]; intros keypoints prev Hrun.
  - simpl in Hrun. injection Hrun as <-. exists 0%nat. simpl.
    rewrite app_nil_r. repeat (split; [done|]). lia.
  - simpl in Hrun.
    destruct (Z.gtb_spec (octave_scale_idx feature) prev) as [Hgt|Hle];
      [discriminate|].
    destruct (negb (octave_scale_idx feature =? prev) &&
              (Z.of_nat (length (keypoints ++ [keypoint_of_feature add_half feature]))
                 >=? to_size_t max_num_features)) eqn:Hstop.
    + injection Hrun as <-. exists 1%nat. simpl.
      apply andb_true_iff in Hstop as [Hne Hsize].
      apply negb_true_iff, Z.eqb_neq in Hne. apply Z.geb_le in Hsize.
      split; [lia|]. split; [reflexivity|]. split; [done|].
      intros _. split; [exact Hsize|exact Hne].
    + destruct (IH _ _ Hrun) as (m & Hm & Hout & Hdesc & Hearly).
      exists (S m). simpl. split; [lia|].
      split; [rewrite Hout, <- app_assoc; reflexivity|]. split; [done|].
      intros Hlt. destruct (Hearly ltac:(lia)) as [Hsize Hlast].
      split; [exact Hsize|].
      destruct (take m features) as [|f' l'] eqn:Htake; [contradiction|].
      exact Hlast.
Qed.

(** X24. On features whose indices octave * 1000 + scale do not
    increase, as after the sort, the copy loop does not abort; when the
    keypoints already in the vector and the features together number
    fewer than max_num_features, every feature is copied. *)
Theorem covariant_copy_sorted add_half max_num_features features keypoints :
  descending INT_MAX features →
  ∃ out,
    copy_features add_half max_num_features features INT_MAX keypoints = Ok out ∧
    (Z.of_nat (length keypoints + length features) < to_size_t max_num_features →
     out = keypoints ++ (keypoint_of_feature add_half <$> features)).
Proof.
  generalize INT_MAX as prev. revert keypoints.
  induction features as [|feature features IH]; intros keypoints prev Hdesc.
  - simpl. eexists. split; [reflexivity|]. intros _. rewrite app_nil_r. reflexivity.
  - simpl in *. destruct Hdesc as [Hle Hdesc].
    destruct (Z.gtb_spec (octave_scale_idx feature) prev) as [Hgt|_]; [lia|].
    destruct (negb (octave_scale_idx feature =? prev) &&
              (Z.of_nat (length (keypoints ++ [keypoint_of_feature add_half feature]))
                 >=? to_size_t max_num_features)) eqn:Hstop.
    + eexists. split; [reflexivity|]. intros Hsmall.
      apply andb_true_iff in Hstop as [_ Hsize]. apply Z.geb_le in Hsize.
      rewrite length_app in Hsize. simpl in Hsize. lia.
    + destruct (IH (keypoints ++ [keypoint_of_feature add_half feature])
                  (octave_scale_idx feature) Hdesc)
        as (out & Hrun & Hall).
      exists out. split; [exact Hrun|]. intros Hsmall.
      rewrite Hall by (rewrite length_app; simpl; lia).
      rewrite <- app_assoc. reflexivity.
Qed.

End MatchingProperties.

(** ** The reordering applied twice *)

(** C5, as amended. Applying the reordering twice returns the original
    descriptors: every cell of every feature is restored and the shape is
    kept. The index map [0,7,6,5,4,3,2,1] is a bijection on the 8 bins of
    a cell and it is its own inverse. *)
Theorem ubc_transform_involutive uninit uninit' vl n c :
  cols vl = 128%nat → (n < rows vl)%nat → (c < cols vl)%nat →
  coeff (TransformVLFeatToUBCFeatureDescriptors uninit
           (TransformVLFeatToUBCFeatureDescriptors uninit' vl)) n c =
  coeff vl n c ∧
  rows (TransformVLFeatToUBCFeatureDescriptors uninit
          (TransformVLFeatToUBCFeatureDescriptors uninit' vl)) = rows vl ∧
  cols (TransformVLFeatToUBCFeatureDescriptors uninit
          (TransformVLFeatToUBCFeatureDescriptors uninit' vl)) = cols vl ∧
  NoDup q ∧
  ∀ k, (k < 8)%nat → (q_at k < 8)%nat ∧ q_at (q_at k) = k.
Proof.
  intros Hcols Hn Hc. rewrite Hcols in Hc.
  split; [apply transform_twice_coeff; assumption|].
  destruct (transform_dims uninit' vl) as [Hr' Hc'].
  destruct (transform_dims uninit
              (TransformVLFeatToUBCFeatureDescriptors uninit' vl)) as [Hr'' Hc''].
  split; [congruence|]. split; [congruence|].
  split; [exact (bool_decide_unpack (NoDup q) I)|].
  intros k Hk. split; [apply q_at_lt, Hk|apply q_at_involutive, Hk].
Qed.

(** No descriptor distinguishes the double reordering from the identity,
    and no bin distinguishes the index map from its inverse. *)
Lemma ubc_twice_never_differs :
  ¬ (∃ uninit uninit' (vl : FeatureDescriptors) n c,
       cols vl = 128%nat ∧ (n < rows vl)%nat ∧ (c < cols vl)%nat ∧
       coeff (TransformVLFeatToUBCFeatureDescriptors uninit
                (TransformVLFeatToUBCFeatureDescriptors uninit' vl)) n c ≠
       coeff vl n c) ∧
  ¬ (∃ k, (k < 8)%nat ∧ q_at (q_at k) ≠ k).
Proof.
  split.
  - intros (uninit & uninit' & vl & n & c & Hcols & Hn & Hc & Hne).
    rewrite Hcols in Hc. apply Hne, transform_twice_coeff; assumption.
  - intros (k & Hk & Hne). apply Hne, q_at_involutive, Hk.
Qed.

Lemma ubc_transform_involutive_witness :
  cols ramp_descriptors = 128%nat ∧
  (0 < rows ramp_descriptors)%nat ∧ (1 < cols ramp_descriptors)%nat ∧
  coeff (TransformVLFeatToUBCFeatureDescriptors (λ _ _, x00)
           (TransformVLFeatToUBCFeatureDescriptors (λ _ _, x00)
              ramp_descriptors)) 0 1 =
  coeff ramp_descriptors 0 1.
Proof.
  assert (cols ramp_descriptors = 128%nat) as Hcols by reflexivity.
  assert (0 < rows ramp_descriptors)%nat as Hn by (simpl; lia).
  assert (1 < cols ramp_descriptors)%nat as Hc by (simpl; lia).
  split; [exact Hcols|]. split; [exact Hn|]. split; [exact Hc|].
  exact (proj1 (ubc_transform_involutive (λ _ _, x00) (λ _ _, x00)
                  ramp_descriptors 0 1 Hcols Hn Hc)).
Defined.

(** ** Exact real arithmetic *)

Lemma real_dist_normed (dist : Z) :
  @dist_normed RealArith dist = acos (Rmin (IZR dist / 262144) 1).
Proof.
  unfold dist_normed, fmin, kDistNorm. simpl.
  replace (1 / (512 * 512) * IZR dist)%R with (IZR dist / 262144)%R by (field; lra).
  unfold Rmin. case_bool_decide; destruct (Rle_dec _ _); try reflexivity; lra.
Qed.

Lemma real_dist_normed_0 : @dist_normed RealArith 0 = (PI / 2)%R.
Proof.
  rewrite real_dist_normed.
  replace (0 / 262144)%R with 0%R by lra.
  rewrite Rmin_left by lra. apply acos_0.
Qed.

Lemma real_dist_normed_half : @dist_normed RealArith 131072 = (PI / 3)%R.
Proof.
  rewrite real_dist_normed.
  replace (131072 / 262144)%R with (1 / 2)%R by lra.
  rewrite Rmin_left by lra. rewrite <- cos_PI3.
  apply acos_cos. pose proof PI_RGT_0. lra.
Qed.

Lemma real_dist_normed_bound dist :
  (0 <= @dist_normed RealArith dist <= PI)%R.
Proof. rewrite real_dist_normed. apply acos_bound. Qed.

(** Real arithmetic satisfies the two laws. *)
Lemma RealLaws : @FloatLaws RealArith.
Proof.
  split.
  - intros dist _. pose proof (real_dist_normed_bound dist) as [Hb _].
    change (bool_decide (@dist_normed RealArith dist >= 0)%R = true).
    apply bool_decide_eq_true. lra.
  - intros r a Hr0 Hr1 Ha. simpl in *.
    apply bool_decide_eq_true in Hr0, Hr1, Ha. apply bool_decide_eq_true. nra.
Qed.

(** In real arithmetic the single candidate of a row is matched exactly
    when its angle is at most [max_distance] and below [max_ratio] times
    a right angle. *)
Lemma real_single_candidate dists (r md : R) c V :
  rows dists = 1%nat →
  (c < cols dists)%nat → coeff dists 0 c = V → 0 < V →
  (∀ j, (j < cols dists)%nat → j ≠ c → coeff dists 0 j = 0) →
  @one_way RealArith dists r md !! 0%nat = Some (Z.of_nat c) ↔
  (acos (Rmin (IZR V / 262144) 1) <= md)%R ∧
  (acos (Rmin (IZR V / 262144) 1) < r * (PI / 2))%R.
Proof.
  intros Hrows Hc HV Hpos Hzero.
  rewrite (one_way_single (FA:=RealArith) dists r md 0 c V
             ltac:(lia) Hc HV Hpos Hzero).
  rewrite real_dist_normed_0, real_dist_normed. simpl.
  repeat case_bool_decide; simpl; split.
  all: try (intros Heq; exfalso; injection Heq as Heq; lia).
  all: try (intros [? ?]; exfalso; lra).
  - intros _. lra.
  - reflexivity.
Qed.

(** When [max_distance] is below [max_ratio] times a right angle, as it
    is for the thresholds 0.7 and 0.8, the distance test alone decides. *)
Lemma real_single_candidate_distance dists (r md : R) c V :
  rows dists = 1%nat →
  (c < cols dists)%nat → coeff dists 0 c = V → 0 < V →
  (∀ j, (j < cols dists)%nat → j ≠ c → coeff dists 0 j = 0) →
  (md < r * (PI / 2))%R →
  @one_way RealArith dists r md !! 0%nat = Some (Z.of_nat c) ↔
  (acos (Rmin (IZR V / 262144) 1) <= md)%R.
Proof.
  intros Hrows Hc HV Hpos Hzero Hmd.
  rewrite (real_single_candidate dists r md c V Hrows Hc HV Hpos Hzero).
  split; [tauto|]. intros Hle. split; [exact Hle|lra].
Qed.

(** ** Concrete runs *)

Lemma distance_matrix_cells_witness :
  guided_checks (Some origin_keypoints) (Some origin_keypoints)
    full_norm_descriptors ramp_descriptors reject_all = true ∧
  cols full_norm_descriptors = 128%nat ∧ cols ramp_descriptors = 128%nat ∧
  ∃ dists,
    ComputeSiftDistanceMatrix (λ _ _, 7) (Some origin_keypoints)
      (Some origin_keypoints) full_norm_descriptors ramp_descriptors
      reject_all = Ok dists ∧
    rows dists = 1%nat ∧ cols dists = 1%nat.
Proof.
  assert (guided_checks (Some origin_keypoints) (Some origin_keypoints)
            full_norm_descriptors ramp_descriptors reject_all = true) as Hchk
    by reflexivity.
  assert (cols full_norm_descriptors = 128%nat) as Hc1 by reflexivity.
  assert (cols ramp_descriptors = 128%nat) as Hc2 by reflexivity.
  split; [exact Hchk|]. split; [exact Hc1|]. split; [exact Hc2|].
  destruct (distance_matrix_cells (λ _ _, 7) _ _ _ _ _ Hchk Hc1 Hc2)
    as (dists & Hrun & Hr & Hc & _).
  exists dists. split; [exact Hrun|]. split; [exact Hr|exact Hc].
Defined.

(** Two saturated descriptors have the dot product 128 * 255 * 255. *)
Lemma saturated_dot : dot saturated_descriptors saturated_descriptors 0 0 = 8323200.
Proof. vm_compute. reflexivity. Qed.

(** The bound 262144 is reached by a descriptor of that squared norm. *)
Lemma full_norm_dot :
  dot full_norm_descriptors full_norm_descriptors 0 0 = 262144.
Proof. vm_compute. reflexivity. Qed.

(** A cell of the distance matrix above 262144. *)
Lemma distance_above_262144 :
  ¬ (∀ uninit kps1 kps2 (d1 d2 : FeatureDescriptors) gf dists,
       @ComputeSiftDistanceMatrix RealArith uninit kps1 kps2 d1 d2 gf = Ok dists →
       ∀ i j, (i < rows d1)%nat → (j < rows d2)%nat →
              0 ≤ coeff dists i j ≤ 262144).
Proof.
  intros Hclaim.
  destruct (distance_matrix_ok (FA:=RealArith) (λ _ _, 0) None None
              saturated_descriptors saturated_descriptors None
              eq_refl eq_refl eq_refl) as (dists & Hrun & _ & _ & Hcell).
  specialize (Hclaim _ _ _ _ _ _ _ Hrun 0%nat 0%nat ltac:(simpl; lia) ltac:(simpl; lia)).
  rewrite Hcell, dist_cell_unguided, saturated_dot in Hclaim by (simpl; lia).
  lia.
Qed.

Lemma distance_matrix_range_witness :
  guided_checks (FA:=RealArith) None None
    full_norm_descriptors full_norm_descriptors None = true ∧
  cols full_norm_descriptors = 128%nat ∧
  ∃ dists,
    ComputeSiftDistanceMatrix (FA:=RealArith) (λ _ _, 7) None None
      full_norm_descriptors full_norm_descriptors None = Ok dists ∧
    0 ≤ coeff dists 0 0 ≤ 262144.
Proof.
  assert (guided_checks (FA:=RealArith) None None
            full_norm_descriptors full_norm_descriptors None = true) as Hchk
    by reflexivity.
  assert (cols full_norm_descriptors = 128%nat) as Hc by reflexivity.
  split; [exact Hchk|]. split; [exact Hc|].
  destruct (distance_matrix_range (λ _ _, 7) _ _ _ _ _ Hchk Hc Hc)
    as (dists & Hrun & Hcell).
  exists dists. split; [exact Hrun|].
  destruct (Hcell 0%nat 0%nat) as [Hrange Hnorm]; [simpl; lia..|].
  destruct Hnorm as [Hle _]; [rewrite (full_norm_dot : norm2 _ _ = _); lia..|].
  lia.
Defined.

Lemma tie_scan : scan_row tie_dists 0 = mkRowScan 0 131072 131072.
Proof. vm_compute. reflexivity. Qed.

(** With max_ratio = 2 a tie of best and second-best is accepted: the
    angle PI/3 is below 2 * PI/3. *)
Lemma tie_accepted_run :
  snd (@FindBestMatchesOneWay RealArith tie_dists 2%R 4%R []) !! 0%nat = Some 0.
Proof.
  change (@one_way RealArith tie_dists 2%R 4%R !! 0%nat = Some 0).
  rewrite one_way_lookup by (simpl; lia). unfold accepted.
  rewrite tie_scan. cbn [best_i2 best_dist second_best_dist].
  rewrite real_dist_normed_half. simpl.
  pose proof PI_RGT_0. pose proof PI_4.
  rewrite !bool_decide_eq_false_2 by lra. reflexivity.
Qed.

Lemma tie_accepted_above_ratio_one :
  ¬ (∀ (dists : MatrixXi) (r md : R) (i1 : nat),
       (r > 0)%R → (md > 0)%R → (i1 < rows dists)%nat →
       0 < best_dist (scan_row dists i1) →
       second_best_dist (scan_row dists i1) = best_dist (scan_row dists i1) →
       snd (@FindBestMatchesOneWay RealArith dists r md []) !! i1 = Some (-1)).
Proof.
  intros Hclaim.
  specialize (Hclaim tie_dists 2%R 4%R 0%nat ltac:(lra) ltac:(lra)
                ltac:(simpl; lia)).
  rewrite tie_scan, tie_accepted_run in Hclaim.
  specialize (Hclaim ltac:(simpl; lia) eq_refl). discriminate.
Qed.

Lemma tie_rejected_witness :
  @fgt RealArith 1%R (f_of_int 0) = true ∧
  @fge RealArith (f_of_int 1) 1%R = true ∧
  (0 < rows tie_dists)%nat ∧
  0 < best_dist (scan_row tie_dists 0) ∧
  second_best_dist (scan_row tie_dists 0) = best_dist (scan_row tie_dists 0) ∧
  snd (@FindBestMatchesOneWay RealArith tie_dists 1%R 4%R []) !! 0%nat = Some (-1).
Proof.
  assert (@fgt RealArith 1%R (f_of_int 0) = true) as Hr0
    by (apply bool_decide_eq_true; simpl; lra).
  assert (@fge RealArith (f_of_int 1) 1%R = true) as Hr1
    by (apply bool_decide_eq_true; simpl; lra).
  assert (0 < rows tie_dists)%nat as Hi1 by (simpl; lia).
  assert (0 < best_dist (scan_row tie_dists 0)) as Hpos
    by (rewrite tie_scan; simpl; lia).
  assert (second_best_dist (scan_row tie_dists 0) =
          best_dist (scan_row tie_dists 0)) as Htie
    by (rewrite tie_scan; reflexivity).
  repeat (split; [assumption|]).
  exact (tie_rejected (FL:=RealLaws) tie_dists 1%R 4%R 0 Hr0 Hr1 Hi1 Hpos Htie).
Defined.

(** With max_ratio = 1/2 the single candidate of a row fails the ratio
    test although its angle PI/3 is within max_distance = 4. *)
Lemma single_candidate_ratio_rejects :
  ¬ (∀ (dists : MatrixXi) (r md : R) (c : nat) (V : Z),
       rows dists = 1%nat →
       (c < cols dists)%nat → coeff dists 0 c = V → 0 < V →
       (∀ j, (j < cols dists)%nat → j ≠ c → coeff dists 0 j = 0) →
       (r > 0)%R → (md > 0)%R →
       (snd (@FindBestMatchesOneWay RealArith dists r md []) !! 0%nat =
          Some (Z.of_nat c) ↔
        (acos (IZR V / 262144) <= md)%R)).
Proof.
  intros Hclaim.
  specialize (Hclaim single_dists (1 / 2)%R 4%R 0%nat 131072 eq_refl
                ltac:(simpl; lia) eq_refl ltac:(lia)
                ltac:(simpl; intros; lia) ltac:(lra) ltac:(lra)).
  change (snd (@FindBestMatchesOneWay RealArith single_dists (1 / 2)%R 4%R []))
    with (@one_way RealArith single_dists (1 / 2)%R 4%R) in Hclaim.
  rewrite (one_way_single (FA:=RealArith) single_dists (1 / 2)%R 4%R 0 0 131072)
    in Hclaim by (simpl; try reflexivity; intros; lia).
  rewrite real_dist_normed_half, real_dist_normed_0 in Hclaim.
  pose proof PI_RGT_0. pose proof PI_4.
  simpl in Hclaim.
  rewrite (bool_decide_eq_false_2 (PI / 3 > 4)%R) in Hclaim by lra.
  rewrite (bool_decide_eq_true_2 (PI / 3 >= 1 / 2 * (PI / 2))%R) in Hclaim by lra.
  simpl in Hclaim.
  assert (acos (131072 / 262144) <= 4)%R as Hle.
  { replace (131072 / 262144)%R with (1 / 2)%R by lra.
    rewrite <- cos_PI3, acos_cos by lra. lra. }
  apply Hclaim in Hle. discriminate.
Qed.

Lemma single_candidate_row_witness :
  rows single_dists = 1%nat ∧ (0 < cols single_dists)%nat ∧
  coeff single_dists 0 0 = 131072 ∧ 0 < 131072 ∧
  (∀ j, (j < cols single_dists)%nat → j ≠ 0%nat → coeff single_dists 0 j = 0) ∧
  (snd (@FindBestMatchesOneWay RealArith single_dists 1%R 4%R []) !! 0%nat =
     Some (Z.of_nat 0) ↔
   @fgt RealArith (dist_normed 131072) 4%R = false ∧
   @fge RealArith (dist_normed 131072)
     (@fmul RealArith 1%R (@dist_normed RealArith 0)) = false).
Proof.
  assert (rows single_dists = 1%nat) as Hrows by reflexivity.
  assert (0 < cols single_dists)%nat as Hc by (simpl; lia).
  assert (coeff single_dists 0 0 = 131072) as HV by reflexivity.
  assert (0 < 131072) as Hpos by lia.
  assert (∀ j, (j < cols single_dists)%nat → j ≠ 0%nat →
               coeff single_dists 0 j = 0) as Hzero by (simpl; intros; lia).
  repeat (split; [assumption|]).
  exact (proj1 (single_candidate_row (FA:=RealArith) single_dists 1%R 4%R 0 131072
                  Hrows Hc HV Hpos Hzero)).
Defined.

Lemma zero_entry_never_matched_witness :
  (0 < rows zero_dists)%nat ∧
  (∀ i2, (i2 < cols zero_dists)%nat → coeff zero_dists 0 i2 = 0) ∧
  snd (@FindBestMatchesOneWay RealArith zero_dists (4 / 5)%R 4%R []) !! 0%nat =
    Some (-1).
Proof.
  assert (0 < rows zero_dists)%nat as Hi1 by (simpl; lia).
  assert (∀ i2, (i2 < cols zero_dists)%nat → coeff zero_dists 0 i2 = 0) as Hrow.
  { intros i2 Hi2. simpl in Hi2.
    destruct i2 as [|[|i2]]; [reflexivity|reflexivity|lia]. }
  split; [exact Hi1|]. split; [exact Hrow|].
  exact (proj1 (proj2 (zero_entry_never_matched (FA:=RealArith) zero_dists
                         (4 / 5)%R 4%R true []) 0%nat Hi1 Hrow)).
Defined.

Lemma real_options_check : @Check RealArith CharsMisc real_options = true.
Proof.
  unfold Check. simpl.
  rewrite !bool_decide_eq_true_2 by lra. reflexivity.
Qed.

Lemma unguided_config_noop_witness :
  @Check RealArith CharsMisc real_options = true ∧
  config undefined_geometry ≠ CALIBRATED ∧
  config undefined_geometry ≠ UNCALIBRATED ∧
  config undefined_geometry ≠ PLANAR ∧
  config undefined_geometry ≠ PANORAMIC ∧
  config undefined_geometry ≠ PLANAR_OR_PANORAMIC ∧
  @MatchGuidedSiftFeaturesCPU RealArith CharsMisc (λ _ _, 7) real_options
    origin_keypoints origin_keypoints ramp_descriptors ramp_descriptors
    undefined_geometry = Ok undefined_geometry.
Proof.
  assert (config undefined_geometry ≠ CALIBRATED) as H1 by discriminate.
  assert (config undefined_geometry ≠ UNCALIBRATED) as H2 by discriminate.
  assert (config undefined_geometry ≠ PLANAR) as H3 by discriminate.
  assert (config undefined_geometry ≠ PANORAMIC) as H4 by discriminate.
  assert (config undefined_geometry ≠ PLANAR_OR_PANORAMIC) as H5 by discriminate.
  split; [exact real_options_check|]. repeat (split; [assumption|]).
  exact (unguided_config_noop (FA:=RealArith) (MU:=CharsMisc) (λ _ _, 7)
           real_options origin_keypoints origin_keypoints ramp_descriptors
           ramp_descriptors undefined_geometry real_options_check H1 H2 H3 H4 H5).
Defined.

(** The CHECK on the options comes before the configuration is read:
    options that fail it abort the controller for every geometry. *)
Lemma guided_bad_options_fatal {FA : FloatArith} {MU : MiscUtils} uninit
    match_options keypoints1 keypoints2 descriptors1 descriptors2
    two_view_geometry :
  Check match_options = false →
  MatchGuidedSiftFeaturesCPU uninit match_options keypoints1 keypoints2
    descriptors1 descriptors2 two_view_geometry = Fatal.
Proof.
  intros Hchk. unfold MatchGuidedSiftFeaturesCPU. rewrite Hchk. reflexivity.
Qed.

Lemma zero_ratio_options_check :
  @Check RealArith CharsMisc zero_ratio_options = false.
Proof.
  unfold Check. simpl.
  rewrite (bool_decide_eq_false_2 (0 > 0)%R) by lra. reflexivity.
Qed.

(** With max_ratio = 0 the controller aborts on a geometry of an
    unnamed configuration: the call is an error, not a no-op. *)
Lemma unguided_config_bad_options_abort :
  ¬ (∀ (uninit : nat → nat → Z) (match_options : @SiftMatchingOptions RealArith)
       (keypoints1 keypoints2 : list (@FeatureKeypoint RealArith))
       (descriptors1 descriptors2 : FeatureDescriptors)
       (two_view_geometry : @TwoViewGeometry RealArith),
       config two_view_geometry ≠ CALIBRATED →
       config two_view_geometry ≠ UNCALIBRATED →
       config two_view_geometry ≠ PLANAR →
       config two_view_geometry ≠ PANORAMIC →
       config two_view_geometry ≠ PLANAR_OR_PANORAMIC →
       @MatchGuidedSiftFeaturesCPU RealArith CharsMisc uninit match_options
         keypoints1 keypoints2 descriptors1 descriptors2 two_view_geometry =
       Ok two_view_geometry).
Proof.
  intros Hclaim.
  specialize (Hclaim (λ _ _, 7) zero_ratio_options origin_keypoints
                origin_keypoints ramp_descriptors ramp_descriptors
                undefined_geometry ltac:(discriminate) ltac:(discriminate)
                ltac:(discriminate) ltac:(discriminate) ltac:(discriminate)).
  rewrite (guided_bad_options_fatal (FA:=RealArith) (MU:=CharsMisc) (λ _ _, 7)
             zero_ratio_options origin_keypoints origin_keypoints
             ramp_descriptors ramp_descriptors undefined_geometry
             zero_ratio_options_check) in Hclaim.
  discriminate.
Qed.

Lemma epipolar_filter_residual_witness :
  (config calibrated_geometry = CALIBRATED ∨
   config calibrated_geometry = UNCALIBRATED) ∧
  ∃ g, @select_guided_filter RealArith real_options calibrated_geometry = Some g ∧
       g 0%R 0%R 0%R 0%R =
       @fgt RealArith
         (epipolar_residual (Matrix3_cast (F calibrated_geometry)) 0%R 0%R 0%R 0%R)
         (f_cast (dmul (max_error real_options) (max_error real_options))).
Proof.
  assert (config calibrated_geometry = CALIBRATED ∨
          config calibrated_geometry = UNCALIBRATED) as Hcfg by (left; reflexivity).
  split; [exact Hcfg|].
  destruct (epipolar_filter_residual (FA:=RealArith) real_options
              calibrated_geometry Hcfg) as (g & Hsel & Hg).
  exists g. split; [exact Hsel|apply Hg].
Defined.

(** ** The guided filters in exact real arithmetic *)

(** X18. In exact real arithmetic a pair of points that satisfies the
    epipolar constraint p2^T F p1 = 0 exactly is never rejected by the
    filter of the calibrated and uncalibrated configurations, whatever
    max_error is. *)
Theorem real_epipolar_exact_accepted
    (match_options : @SiftMatchingOptions RealArith)
    (two_view_geometry : @TwoViewGeometry RealArith) (x1 y1 x2 y2 : R) :
  config two_view_geometry = CALIBRATED ∨
  config two_view_geometry = UNCALIBRATED →
  (x2 * (m00 (F two_view_geometry) * x1 + m01 (F two_view_geometry) * y1 +
         m02 (F two_view_geometry)) +
   y2 * (m10 (F two_view_geometry) * x1 + m11 (F two_view_geometry) * y1 +
         m12 (F two_view_geometry)) +
   (m20 (F two_view_geometry) * x1 + m21 (F two_view_geometry) * y1 +
    m22 (F two_view_geometry)) = 0)%R →
  ∃ g, @select_guided_filter RealArith match_options two_view_geometry = Some g ∧
       g x1 y1 x2 y2 = false.
Proof.
  intros Hcfg Hzero. unfold select_guided_filter.
  destruct Hcfg as [-> | ->]; eexists; (split; [reflexivity|]).
  all: unfold epipolar_filter, dot3, Matrix3_mul, Matrix3_cast; simpl in *.
  all: apply bool_decide_eq_false_2.
  all: match goal with
       | |- ¬ (?n * ?n / ?d > ?e * ?e)%R =>
           assert (@eq R n 0%R) as -> by (rewrite <- Hzero; ring);
           unfold Rdiv; rewrite !Rmult_0_l; nra
       end.
Qed.

(** X19. In exact real arithmetic a pair of points that the homography
    maps onto each other exactly, H p1 = w (x2, y2, 1) with w <> 0, is
    never rejected by the filter of the planar configurations. *)
Theorem real_homography_exact_accepted
    (match_options : @SiftMatchingOptions RealArith)
    (two_view_geometry : @TwoViewGeometry RealArith) (x1 y1 x2 y2 w : R) :
  config two_view_geometry = PLANAR ∨
  config two_view_geometry = PANORAMIC ∨
  config two_view_geometry = PLANAR_OR_PANORAMIC →
  w ≠ 0%R →
  (m00 (H two_view_geometry) * x1 + m01 (H two_view_geometry) * y1 +
   m02 (H two_view_geometry) = w * x2)%R →
  (m10 (H two_view_geometry) * x1 + m11 (H two_view_geometry) * y1 +
   m12 (H two_view_geometry) = w * y2)%R →
  (m20 (H two_view_geometry) * x1 + m21 (H two_view_geometry) * y1 +
   m22 (H two_view_geometry) = w)%R →
  ∃ g, @select_guided_filter RealArith match_options two_view_geometry = Some g ∧
       g x1 y1 x2 y2 = false.
Proof.
  intros Hcfg Hw Hx Hy Hz. unfold select_guided_filter.
  destruct Hcfg as [-> | [-> | ->]]; eexists; (split; [reflexivity|]).
  all: unfold homography_filter, squaredNorm, Vector2_sub, hnormalized,
         dot3, Matrix3_mul, Matrix3_cast; simpl in *.
  all: apply bool_decide_eq_false_2.
  all: match goal with
       | |- ¬ ((?a / ?c - _) * _ + (?b / ?c - _) * _ > ?e * ?e)%R =>
           assert (@eq R c w) as -> by (rewrite <- Hz; ring);
           assert (@eq R a (w * x2)%R) as -> by (rewrite <- Hx; ring);
           assert (@eq R b (w * y2)%R) as -> by (rewrite <- Hy; ring);
           replace (w * x2 / w)%R with x2 by (field; exact Hw);
           replace (w * y2 / w)%R with y2 by (field; exact Hw);
           nra
       end.
Qed.

(** ** Concrete runs of the further properties *)

Lemma real_dist_normed_full : @dist_normed RealArith 262144 = 0%R.
Proof.
  rewrite real_dist_normed.
  replace (262144 / 262144)%R with 1%R by lra.
  rewrite Rmin_left by lra. apply acos_1.
Qed.

(** With max_ratio = 4/5 and max_distance = 4 the single candidate of
    [single_dists] is matched. *)
Lemma single_matched_run :
  snd (@FindBestMatchesOneWay RealArith single_dists (4 / 5)%R 4%R []) !! 0%nat =
  Some 0.
Proof.
  change (@one_way RealArith single_dists (4 / 5)%R 4%R !! 0%nat = Some 0).
  rewrite (one_way_single (FA:=RealArith) single_dists (4 / 5)%R 4%R 0 0 131072)
    by (simpl; try reflexivity; intros; lia).
  rewrite real_dist_normed_half, real_dist_normed_0. simpl.
  pose proof PI_RGT_0. pose proof PI_4.
  rewrite !bool_decide_eq_false_2 by lra. reflexivity.
Qed.

Lemma selector_picks_first_maximum_witness :
  snd (@FindBestMatchesOneWay RealArith single_dists (4 / 5)%R 4%R []) !! 0%nat =
    Some 0 ∧ 0 ≠ -1 ∧
  ∃ c, 0 = Z.of_nat c ∧ (c < cols single_dists)%nat ∧ 0 < coeff single_dists 0 c.
Proof.
  assert (0 ≠ -1) as Hne by lia.
  split; [exact single_matched_run|]. split; [exact Hne|].
  destruct (selector_picks_first_maximum (FA:=RealArith) single_dists
              (4 / 5)%R 4%R 0 0 single_matched_run Hne)
    as (c & Hc & Hlt & Hpos & _).
  exists c. done.
Defined.

Lemma scan_second_best_witness :
  best_i2 (scan_row tie_dists 0) = Z.of_nat 0 ∧
  second_best_dist (scan_row tie_dists 0) = best_dist (scan_row tie_dists 0).
Proof.
  assert (best_i2 (scan_row tie_dists 0) = Z.of_nat 0) as Hbest
    by (rewrite tie_scan; reflexivity).
  split; [exact Hbest|].
  destruct (scan_second_best tie_dists 0 0 Hbest) as (_ & _ & _ & Htie).
  apply (Htie 1%nat); [simpl; lia|lia|].
  rewrite tie_scan. reflexivity.
Defined.

Lemma selector_keeps_old_entries_witness :
  (0 < rows zero_dists)%nat ∧
  snd (@FindBestMatchesOneWay RealArith zero_dists (4 / 5)%R 4%R [5; 6]) !! 0%nat =
    Some 5.
Proof.
  assert (0 < rows zero_dists)%nat as Hi1 by (simpl; lia).
  split; [exact Hi1|].
  exact (proj2 (selector_keeps_old_entries (FA:=RealArith) zero_dists
                  (4 / 5)%R 4%R [5; 6] 0 Hi1)).
Defined.

Lemma ubc_transform_cells_witness :
  cols ramp_descriptors = 128%nat ∧ (0 < rows ramp_descriptors)%nat ∧
  (2 < 16)%nat ∧ (3 < 8)%nat ∧
  coeff (TransformVLFeatToUBCFeatureDescriptors (λ _ _, x00) ramp_descriptors)
    0 (8 * 2 + q_at 3) = coeff ramp_descriptors 0 (8 * 2 + 3).
Proof.
  assert (cols ramp_descriptors = 128%nat) as Hcols by reflexivity.
  assert (0 < rows ramp_descriptors)%nat as Hn by (simpl; lia).
  assert (2 < 16)%nat as Hcell by lia.
  assert (3 < 8)%nat as Hk by lia.
  repeat (split; [assumption|]).
  exact (proj1 (ubc_transform_cells (λ _ _, x00) ramp_descriptors 0 2 3
                  Hcols Hn Hcell Hk)).
Defined.

Lemma ubc_transform_preserves_dot_witness :
  (0 < rows ramp_descriptors)%nat ∧ (0 < rows full_norm_descriptors)%nat ∧
  dot (TransformVLFeatToUBCFeatureDescriptors (λ _ _, x00) ramp_descriptors)
      (TransformVLFeatToUBCFeatureDescriptors (λ _ _, xff) full_norm_descriptors)
      0 0 =
  dot ramp_descriptors full_norm_descriptors 0 0.
Proof.
  assert (0 < rows ramp_descriptors)%nat as H1 by (simpl; lia).
  assert (0 < rows full_norm_descriptors)%nat as H2 by (simpl; lia).
  split; [exact H1|]. split; [exact H2|].
  exact (proj1 (ubc_transform_preserves_dot (λ _ _, x00) (λ _ _, xff)
                  ramp_descriptors full_norm_descriptors 0 0 H1 H2)).
Defined.

Lemma distance_matrix_fatal_witness :
  cols ramp_descriptors = 128%nat ∧
  @ComputeSiftDistanceMatrix RealArith (λ _ _, 7) (Some origin_keypoints) None
    ramp_descriptors ramp_descriptors reject_all = Fatal.
Proof.
  assert (cols ramp_descriptors = 128%nat) as Hc by reflexivity.
  split; [exact Hc|].
  apply (distance_matrix_fatal (FA:=RealArith) (λ _ _, 7) (Some origin_keypoints)
           None ramp_descriptors ramp_descriptors reject_all Hc Hc).
  split; [eexists; reflexivity|].
  intros (k1 & k2 & _ & Hk2 & _). discriminate.
Defined.

Lemma match_sift_nearest_witness :
  @Check RealArith CharsMisc real_options = true ∧
  cols full_norm_descriptors = 128%nat ∧
  ∃ matches,
    @MatchSiftFeaturesCPU RealArith CharsMisc (λ _ _, 7) real_options
      full_norm_descriptors full_norm_descriptors [] = Ok matches.
Proof.
  assert (cols full_norm_descriptors = 128%nat) as Hc by reflexivity.
  split; [exact real_options_check|]. split; [exact Hc|].
  destruct (match_sift_nearest (FA:=RealArith) (MU:=CharsMisc) (λ _ _, 7)
              real_options full_norm_descriptors full_norm_descriptors []
              real_options_check Hc Hc) as (matches & Hrun & _).
  exists matches. exact Hrun.
Defined.

Lemma match_sift_symmetric_witness :
  @Check RealArith CharsMisc real_options = true ∧
  cross_check real_options = true ∧
  cols full_norm_descriptors = 128%nat ∧ cols ramp_descriptors = 128%nat ∧
  ∃ matches12 matches21,
    @MatchSiftFeaturesCPU RealArith CharsMisc (λ _ _, 7) real_options
      full_norm_descriptors ramp_descriptors [] = Ok matches12 ∧
    @MatchSiftFeaturesCPU RealArith CharsMisc (λ _ _, 9) real_options
      ramp_descriptors full_norm_descriptors [] = Ok matches21 ∧
    (mkFeatureMatch 0 0 ∈ matches12 ↔ mkFeatureMatch 0 0 ∈ matches21).
Proof.
  assert (cross_check real_options = true) as Hcc by reflexivity.
  assert (cols full_norm_descriptors = 128%nat) as Hc1 by reflexivity.
  assert (cols ramp_descriptors = 128%nat) as Hc2 by reflexivity.
  split; [exact real_options_check|]. repeat (split; [assumption|]).
  destruct (match_sift_symmetric (FA:=RealArith) (MU:=CharsMisc) (λ _ _, 7)
              (λ _ _, 9) real_options full_norm_descriptors ramp_descriptors [] []
              real_options_check Hcc Hc1 Hc2) as (m12 & m21 & H12 & H21 & Hsym).
  exists m12, m21. split; [exact H12|]. split; [exact H21|apply Hsym].
Defined.

Lemma match_sift_ubc_invariant_witness :
  @Check RealArith CharsMisc real_options = true ∧
  cols full_norm_descriptors = 128%nat ∧ cols ramp_descriptors = 128%nat ∧
  ∃ matches,
    @MatchSiftFeaturesCPU RealArith CharsMisc (λ _ _, 7) real_options
      full_norm_descriptors ramp_descriptors [] = Ok matches ∧
    @MatchSiftFeaturesCPU RealArith CharsMisc (λ _ _, 7) real_options
      (TransformVLFeatToUBCFeatureDescriptors (λ _ _, x00) full_norm_descriptors)
      (TransformVLFeatToUBCFeatureDescriptors (λ _ _, xff) ramp_descriptors) [] =
    Ok matches.
Proof.
  assert (cols full_norm_descriptors = 128%nat) as Hc1 by reflexivity.
  assert (cols ramp_descriptors = 128%nat) as Hc2 by reflexivity.
  split; [exact real_options_check|]. repeat (split; [assumption|]).
  exact (match_sift_ubc_invariant (FA:=RealArith) (MU:=CharsMisc) (λ _ _, 7)
           (λ _ _, x00) (λ _ _, xff) real_options full_norm_descriptors
           ramp_descriptors [] real_options_check Hc1 Hc2).
Defined.

Lemma match_sift_empty_witness :
  @Check RealArith CharsMisc real_options = true ∧
  cols empty_descriptors = 128%nat ∧ cols ramp_descriptors = 128%nat ∧
  (rows empty_descriptors = 0%nat ∨ rows ramp_descriptors = 0%nat) ∧
  @MatchSiftFeaturesCPU RealArith CharsMisc (λ _ _, 7) real_options
    empty_descriptors ramp_descriptors [] = Ok [].
Proof.
  assert (cols empty_descriptors = 128%nat) as Hc1 by reflexivity.
  assert (cols ramp_descriptors = 128%nat) as Hc2 by reflexivity.
  assert (rows empty_descriptors = 0%nat ∨ rows ramp_descriptors = 0%nat) as He
    by (left; reflexivity).
  split; [exact real_options_check|]. repeat (split; [assumption|]).
  exact (match_sift_empty (FA:=RealArith) (MU:=CharsMisc) (λ _ _, 7)
           real_options empty_descriptors ramp_descriptors []
           real_options_check Hc1 Hc2 He).
Defined.

(** With the identity as homography, the keypoint at the origin is
    mapped onto itself: the filter of the planar configurations accepts
    the pair. *)
Lemma planar_filter_origin :
  @homography_filter RealArith (Matrix3_cast (FA:=RealArith) identity3)
    (@f_cast RealArith (@dmul RealArith 4%R 4%R)) 0%R 0%R 0%R 0%R = false.
Proof.
  unfold homography_filter, squaredNorm, Vector2_sub, hnormalized, dot3,
    Matrix3_mul, Matrix3_cast. simpl.
  apply bool_decide_eq_false_2.
  replace (1 * 0 + 0 * 0 + 0 * 1)%R with 0%R by ring.
  replace (0 * 0 + 1 * 0 + 0 * 1)%R with 0%R by ring.
  replace (0 * 0 + 0 * 0 + 1 * 1)%R with 1%R by ring.
  lra.
Qed.

(** A one-by-one matrix whose cell is 262144 gives the match (0, 0). *)
Lemma full_norm_matches (dists : MatrixXi) ms :
  rows dists = 1%nat → cols dists = 1%nat → coeff dists 0 0 = 262144 →
  @FindBestMatches RealArith dists (4 / 5)%R (7 / 10)%R true ms =
  [mkFeatureMatch 0 0].
Proof.
  intros Hr Hc Hcell.
  assert (∀ d : MatrixXi, rows d = 1%nat → cols d = 1%nat →
            coeff d 0 0 = 262144 →
            @one_way RealArith d (4 / 5)%R (7 / 10)%R = [0]) as Hone.
  { intros d Hrd Hcd Hd.
    pose proof (one_way_length (FA:=RealArith) d (4 / 5)%R (7 / 10)%R) as Hlen.
    pose proof (one_way_single (FA:=RealArith) d (4 / 5)%R (7 / 10)%R 0 0 262144
                  ltac:(lia) ltac:(lia) Hd ltac:(lia) ltac:(intros; lia)) as Hl.
    rewrite real_dist_normed_full, real_dist_normed_0 in Hl. simpl in Hl.
    pose proof PI_RGT_0.
    rewrite !bool_decide_eq_false_2 in Hl by lra. simpl in Hl.
    rewrite Hrd in Hlen.
    destruct (@one_way RealArith d (4 / 5)%R (7 / 10)%R) as [|v [|? ?]];
      try discriminate. simpl in Hl. injection Hl as ->. reflexivity. }
  rewrite FindBestMatches_cross, Hr.
  rewrite (Hone dists Hr Hc Hcell).
  rewrite (Hone (transpose dists) Hc Hr Hcell).
  reflexivity.
Qed.

Lemma planar_run :
  @MatchGuidedSiftFeaturesCPU RealArith CharsMisc (λ _ _, 7) real_options
    origin_keypoints origin_keypoints full_norm_descriptors full_norm_descriptors
    planar_geometry =
  Ok (mkTwoViewGeometry (FA:=RealArith) PLANAR identity3 identity3
        [mkFeatureMatch 0 0]).
Proof.
  unfold MatchGuidedSiftFeaturesCPU. rewrite real_options_check. cbn [negb].
  change (@select_guided_filter RealArith real_options planar_geometry)
    with (Some (@homography_filter RealArith (Matrix3_cast (FA:=RealArith) identity3)
                  (@f_cast RealArith (@dmul RealArith 4%R 4%R)))).
  cbv beta iota.
  destruct (distance_matrix_ok (FA:=RealArith) (λ _ _, 7)
              (Some origin_keypoints) (Some origin_keypoints)
              full_norm_descriptors full_norm_descriptors
              (Some (@homography_filter RealArith (Matrix3_cast (FA:=RealArith) identity3)
                       (@f_cast RealArith (@dmul RealArith 4%R 4%R))))
              eq_refl eq_refl eq_refl) as (dists & Hrun & Hr & Hc & Hcell).
  unfold FeatureKeypoints in *. rewrite Hrun. f_equal.
  change (config planar_geometry) with PLANAR.
  change (F planar_geometry) with identity3.
  change (H planar_geometry) with identity3.
  f_equal. apply full_norm_matches; [exact Hr|exact Hc|].
  rewrite Hcell by (simpl; lia).
  rewrite (dist_cell_guided origin_keypoints origin_keypoints
             full_norm_descriptors full_norm_descriptors _ 0 0
             origin_keypoint origin_keypoint eq_refl eq_refl).
  change (x origin_keypoint) with 0%R. change (y origin_keypoint) with 0%R.
  rewrite planar_filter_origin. exact full_norm_dot.
Qed.

Lemma guided_rejected_never_matched_witness :
  @select_guided_filter RealArith real_options planar_geometry =
    Some (@homography_filter RealArith (Matrix3_cast (FA:=RealArith) identity3)
            (@f_cast RealArith (@dmul RealArith 4%R 4%R))) ∧
  @MatchGuidedSiftFeaturesCPU RealArith CharsMisc (λ _ _, 7) real_options
    origin_keypoints origin_keypoints full_norm_descriptors full_norm_descriptors
    planar_geometry =
    Ok (mkTwoViewGeometry (FA:=RealArith) PLANAR identity3 identity3
          [mkFeatureMatch 0 0]) ∧
  mkFeatureMatch 0 0 ∈
    inlier_matches (mkTwoViewGeometry (FA:=RealArith) PLANAR identity3 identity3
                      [mkFeatureMatch 0 0]) ∧
  ∃ kp1 kp2, origin_keypoints !! 0%nat = Some kp1 ∧
             origin_keypoints !! 0%nat = Some kp2 ∧
             @homography_filter RealArith (Matrix3_cast (FA:=RealArith) identity3)
               (@f_cast RealArith (@dmul RealArith 4%R 4%R))
               (x kp1) (y kp1) (x kp2) (y kp2) = false.
Proof.
  assert (mkFeatureMatch 0 0 ∈
            inlier_matches (mkTwoViewGeometry (FA:=RealArith) PLANAR identity3
                              identity3 [mkFeatureMatch 0 0])) as Hin
    by (simpl; apply list_elem_of_singleton; reflexivity).
  split; [reflexivity|]. split; [exact planar_run|]. split; [exact Hin|].
  exact (guided_rejected_never_matched (FA:=RealArith) (MU:=CharsMisc) (λ _ _, 7)
           real_options origin_keypoints origin_keypoints full_norm_descriptors
           full_norm_descriptors planar_geometry _ _ 0 0 eq_refl planar_run Hin).
Defined.

Lemma match_guided_outcome_witness :
  @Check RealArith CharsMisc real_options = true ∧
  cols full_norm_descriptors = 128%nat ∧
  (∀ tag, PLANAR ≠ OtherConfig tag) ∧
  (∀ previous,
     @MatchGuidedSiftFeaturesCPU RealArith CharsMisc (λ _ _, 7) real_options
       [] origin_keypoints full_norm_descriptors full_norm_descriptors
       (mkTwoViewGeometry (FA:=RealArith) PLANAR identity3 identity3 previous) =
     Fatal).
Proof.
  assert (cols full_norm_descriptors = 128%nat) as Hc by reflexivity.
  assert (∀ tag, PLANAR ≠ OtherConfig tag) as Hnamed by (intros tag; discriminate).
  split; [exact real_options_check|]. split; [exact Hc|]. split; [exact Hnamed|].
  apply (match_guided_outcome (FA:=RealArith) (MU:=CharsMisc) (λ _ _, 7)
           real_options [] origin_keypoints full_norm_descriptors
           full_norm_descriptors PLANAR identity3 identity3
           real_options_check Hc Hc Hnamed).
  intros [Hl _]. discriminate.
Defined.

Lemma real_epipolar_exact_accepted_witness :
  (config calibrated_geometry = CALIBRATED ∨
   config calibrated_geometry = UNCALIBRATED) ∧
  ∃ g, @select_guided_filter RealArith real_options calibrated_geometry = Some g ∧
       g 1%R 0%R (-1)%R 0%R = false.
Proof.
  assert (config calibrated_geometry = CALIBRATED ∨
          config calibrated_geometry = UNCALIBRATED) as Hcfg by (left; reflexivity).
  split; [exact Hcfg|].
  apply (real_epipolar_exact_accepted real_options calibrated_geometry
           1%R 0%R (-1)%R 0%R Hcfg).
  simpl. lra.
Defined.

Lemma real_homography_exact_accepted_witness :
  (config planar_geometry = PLANAR ∨
   config planar_geometry = PANORAMIC ∨
   config planar_geometry = PLANAR_OR_PANORAMIC) ∧
  1%R ≠ 0%R ∧
  ∃ g, @select_guided_filter RealArith real_options planar_geometry = Some g ∧
       g 3%R 5%R 3%R 5%R = false.
Proof.
  assert (config planar_geometry = PLANAR ∨
          config planar_geometry = PANORAMIC ∨
          config planar_geometry = PLANAR_OR_PANORAMIC) as Hcfg
    by (left; reflexivity).
  assert (1%R ≠ 0%R) as Hw by lra.
  split; [exact Hcfg|]. split; [exact Hw|].
  apply (real_homography_exact_accepted real_options planar_geometry
           3%R 5%R 3%R 5%R 1%R Hcfg Hw); simpl; lra.
Defined.

Lemma levels_kept_witness :
  length two_level_features = length two_levels ∧ 0 ≤ 1 ∧
  Z.of_nat (sum_list two_level_features) < 2 ^ 31 ∧
  Z.of_nat (sum_list (length <$> two_levels)) < 2 ^ 31 ∧
  ∃ f, fst (fst (@collect_levels RealArith origin_keypoint (λ _ _, x00)
                   (λ _ _, xff) 1 two_level_features two_levels
                   two_level_descriptors [] None)) = Z.of_nat f ∧
       (f < length two_levels)%nat ∧
       1 < Z.of_nat (sum_list (drop f two_level_features)) ∧
       Z.of_nat (sum_list (drop (S f) two_level_features)) ≤ 1.
Proof.
  assert (length two_level_features = length two_levels) as Hlen by reflexivity.
  assert (0 ≤ 1) as Hmax by lia.
  assert (Z.of_nat (sum_list two_level_features) < 2 ^ 31) as Hb1 by reflexivity.
  assert (Z.of_nat (sum_list (length <$> two_levels)) < 2 ^ 31) as Hb2
    by reflexivity.
  repeat (split; [assumption|]).
  destruct (levels_kept (FA:=RealArith) origin_keypoint (λ _ _, x00) (λ _ _, xff)
              1 two_level_features two_levels two_level_descriptors [] None
              Hlen Hmax Hb1 Hb2) as (f & Hf & _ & Hcap).
  exists f. split; [exact Hf|]. apply Hcap. reflexivity.
Defined.

Lemma keypoints_collected_witness :
  length two_level_features = length two_levels ∧ 0 ≤ 1 ∧
  Z.of_nat (sum_list two_level_features) < 2 ^ 31 ∧
  Z.of_nat (sum_list (length <$> two_levels)) < 2 ^ 31 ∧
  snd (fst (@collect_levels RealArith origin_keypoint (λ _ _, x00) (λ _ _, xff)
              1 two_level_features two_levels two_level_descriptors
              [origin_keypoint] None)) =
  concat (drop (Z.to_nat (fst (fst (@collect_levels RealArith origin_keypoint
                                      (λ _ _, x00) (λ _ _, xff) 1
                                      two_level_features two_levels
                                      two_level_descriptors [origin_keypoint]
                                      None))))
            two_levels).
Proof.
  assert (length two_level_features = length two_levels) as Hlen by reflexivity.
  assert (0 ≤ 1) as Hmax by lia.
  assert (Z.of_nat (sum_list two_level_features) < 2 ^ 31) as Hb1 by reflexivity.
  assert (Z.of_nat (sum_list (length <$> two_levels)) < 2 ^ 31) as Hb2
    by reflexivity.
  repeat (split; [assumption|]).
  exact (keypoints_collected (FA:=RealArith) origin_keypoint (λ _ _, x00)
           (λ _ _, xff) 1 two_level_features two_levels two_level_descriptors
           [origin_keypoint] None Hlen Hmax Hb1 Hb2).
Defined.

Lemma descriptors_aligned_witness :
  length two_level_features = length two_levels ∧ 0 ≤ 1 ∧
  Z.of_nat (sum_list two_level_features) < 2 ^ 31 ∧
  Z.of_nat (sum_list (length <$> two_levels)) < 2 ^ 31 ∧
  ∃ f kps descriptors,
    @collect_levels RealArith origin_keypoint (λ _ _, x00) (λ _ _, xff) 1
      two_level_features two_levels two_level_descriptors []
      (Some empty_descriptors) = (Z.of_nat f, kps, Some descriptors) ∧
    rows descriptors = length kps ∧ cols descriptors = 128%nat.
Proof.
  assert (length two_level_features = length two_levels) as Hlen by reflexivity.
  assert (0 ≤ 1) as Hmax by lia.
  assert (Z.of_nat (sum_list two_level_features) < 2 ^ 31) as Hb1 by reflexivity.
  assert (Z.of_nat (sum_list (length <$> two_levels)) < 2 ^ 31) as Hb2
    by reflexivity.
  repeat (split; [assumption|]).
  destruct (descriptors_aligned (FA:=RealArith) origin_keypoint (λ _ _, x00)
              (λ _ _, xff) 1 two_level_features two_levels two_level_descriptors
              [] empty_descriptors Hlen Hmax Hb1 Hb2)
    as (f & kps & descriptors & Hrun & Hr & Hc & _).
  exists f, kps, descriptors. done.
Defined.

Lemma covariant_copy_prefix_witness :
  @copy_features RealArith real_add_half 1 three_features INT_MAX [] =
    Ok (@keypoint_of_feature RealArith real_add_half <$> take 1 three_features) ∧
  ∃ m, (m ≤ length three_features)%nat ∧
    (@keypoint_of_feature RealArith real_add_half <$> take 1 three_features) =
    [] ++ (@keypoint_of_feature RealArith real_add_half <$> take m three_features).
Proof.
  assert (@copy_features RealArith real_add_half 1 three_features INT_MAX [] =
          Ok (@keypoint_of_feature RealArith real_add_half <$>
              take 1 three_features)) as Hrun by reflexivity.
  split; [exact Hrun|].
  destruct (covariant_copy_prefix (FA:=RealArith) real_add_half 1 three_features
              [] _ Hrun) as (m & Hm & Hout & _).
  exists m. split; [exact Hm|exact Hout].
Defined.

Lemma covariant_copy_sorted_witness :
  @descending RealArith INT_MAX three_features ∧
  ∃ out,
    @copy_features RealArith real_add_half 10 three_features INT_MAX
      [origin_keypoint] = Ok out ∧
    out = [origin_keypoint] ++
          (@keypoint_of_feature RealArith real_add_half <$> three_features).
Proof.
  assert (@descending RealArith INT_MAX three_features) as Hdesc
    by (cbv; repeat split; discriminate).
  split; [exact Hdesc|].
  destruct (covariant_copy_sorted (FA:=RealArith) real_add_half 10 three_features
              [origin_keypoint] Hdesc) as (out & Hrun & Hall).
  exists out. split; [exact Hrun|]. apply Hall. reflexivity.
Defined.
